(** * Camouflage tile generator: a shallow embedding of [main.py]

    The development follows the source file top to bottom: the colour
    utilities, the polygon geometry, the blob synthesiser, the shape
    generator, the wrap renderer's instance list and the area summary of
    [main].

    Conventions of the embedding.
    - Python [int] is [Z].
    - Python [float] is read in two ways.  Where the number computed is the
      subject, in the tile size [int(round(tile_mm * px_per_mm))] and in
      [polygon_area], a float is an IEEE 754 double ([double]) and every
      operation rounds as CPython's does ([round_binary64]).  In the geometry
      of the generator a float is an exact rational ([Q]) and a literal such
      as [0.55] denotes the rational it spells: what is proved there is about
      the number of points and shapes, the draws, the roles, the order and
      the exceptions, and does not rest on the value an operation returns.
    - Python [str] is [string], read as code points below 256.
    - Python exceptions are the [Raise] outcomes of [result].
    - [random.Random] is used through its interface: [random()] and
      [_randbelow(n)] are the two primitive draws, every other method
      ([uniform], [randrange], [randint], [shuffle]) is written out from them
      as in CPython's [random.py].  A program that draws is a tree of type
      [rand]; [run] feeds it from a generator state.  The tree can also ask
      the generator of the [random] module, which no seed sets; the program
      never does, and that is part of what is proved.
    - [math.cos], [math.sin] and [math.hypot] are parameters ([Libm]).

    Two facts about the libraries are hypotheses of the results that need
    them: [_randbelow(n)] answers in [range(n)] for positive [n]
    ([randbelow_in_range]), and [math.hypot] is never negative
    ([hypot_nonneg]). *)

From Stdlib Require Import ZArith QArith Qabs Qround List String Ascii Bool.
From Stdlib Require Import Lia Lqa Permutation Sorted DecimalString.
Import ListNotations.

Open Scope Z_scope.

(* ================================================================== *)
(** * Outcomes and exceptions *)

Inductive exn : Type :=
| ValueError
| IndexError
| ZeroDivisionError
| KeyError
| OverflowError.

Inductive result (A : Type) : Type :=
| Ok (a : A)
| Raise (e : exn).

Arguments Ok {A} a.
Arguments Raise {A} e.

Definition rbind {A B : Type} (r : result A) (f : A -> result B) : result B :=
  match r with
  | Ok a => f a
  | Raise e => Raise e
  end.

Declare Scope result_scope.
Delimit Scope result_scope with result.
Notation "x <- c1 ;; c2" := (rbind c1 (fun x => c2))
  (at level 61, c1 at next level, right associativity) : result_scope.
Notation "' pat <- c1 ;; c2" := (rbind c1 (fun x => match x with pat => c2 end))
  (at level 61, pat pattern, c1 at next level, right associativity) : result_scope.

(** A [for] loop over a list whose body may raise. *)
Fixpoint rfold {A S : Type} (body : S -> A -> result S) (l : list A) (s : S)
  : result S :=
  match l with
  | [] => Ok s
  | x :: l' => rbind (body s x) (rfold body l')
  end.

(* ================================================================== *)
(** * Python built-ins used by the program *)

(** [range(lo, hi)]. *)
Definition py_range (lo hi : Z) : list Z :=
  map (fun i => lo + Z.of_nat i) (seq 0 (Z.to_nat (hi - lo))).

(** [l[i]]: a negative index counts from the end; out of range raises. *)
Definition list_get {A : Type} (l : list A) (i : Z) : result A :=
  let n := Z.of_nat (List.length l) in
  let j := if i <? 0 then i + n else i in
  if (j <? 0) || (n <=? j) then Raise IndexError
  else match nth_error l (Z.to_nat j) with
       | Some a => Ok a
       | None => Raise IndexError
       end.

(** [a % b] on integers (the result has the sign of [b]). *)
Definition py_mod (a b : Z) : result Z :=
  if b =? 0 then Raise ZeroDivisionError else Ok (a mod b).

(** [a / b] on floats. *)
Definition py_div (a b : Q) : result Q :=
  if Qeq_bool b 0 then Raise ZeroDivisionError else Ok (a / b)%Q.

(** [a < b] on floats. *)
Definition Qltb (a b : Q) : bool := negb (Qle_bool b a).

(** [round(x)] with one argument: nearest integer, ties to the even one. *)
Definition py_round (x : Q) : Z :=
  let f := Qfloor x in
  match Qcompare (x - inject_Z f) (1 # 2) with
  | Lt => f
  | Gt => f + 1
  | Eq => if Z.even f then f else f + 1
  end.

(** [[x] * n]: a non-positive count gives the empty list. *)
Definition list_repeat {A : Type} (x : A) (n : Z) : list A :=
  repeat x (Z.to_nat n).

(** ** Floats in double precision

    A [double] is a finite value, an infinity or a NaN; the two zeros are
    not told apart.  A finite value is kept as the rational it is. *)

Inductive double : Type :=
| Finite (q : Q)
| Infinity (negative : bool)
| NaN.

Definition pow2 (e : Z) : Q :=
  if 0 <=? e then inject_Z (2 ^ e) else 1 # Z.to_pos (2 ^ (- e)).

(** The integer part of the base-2 logarithm of a positive rational. *)
Definition ilog2 (q : Q) : Z :=
  let k := Z.log2 (Qnum q) - Z.log2 (Zpos (Qden q)) in
  if Qle_bool (pow2 k) q then k else k - 1.

(** The double nearest to a rational, ties to the even significand: 53
    bits of significand, exponents down to the subnormal step [2^-1074],
    and an infinity from [2^1024] on.  This is what a literal denotes and
    what each arithmetic operation returns for the exact result. *)
Definition round_binary64 (q : Q) : double :=
  if Qeq_bool q 0 then Finite 0
  else
    let a := Qabs q in
    let e := Z.max (ilog2 a - 52) (-1074) in
    let m := py_round (a / pow2 e) in
    let r := (inject_Z m * pow2 e)%Q in
    if Qle_bool (pow2 1024) r then Infinity (Qltb q 0)
    else Finite (Qred (if Qltb q 0 then - r else r)).

Definition double_opp (x : double) : double :=
  match x with
  | Finite q => Finite (Qred (- q))
  | Infinity s => Infinity (negb s)
  | NaN => NaN
  end.

(** [abs(x)] *)
Definition double_abs (x : double) : double :=
  match x with
  | Finite q => Finite (Qred (Qabs q))
  | Infinity _ => Infinity false
  | NaN => NaN
  end.

(** [x + y] *)
Definition double_add (x y : double) : double :=
  match x, y with
  | NaN, _ | _, NaN => NaN
  | Infinity a, Infinity b => if Bool.eqb a b then Infinity a else NaN
  | Infinity a, Finite _ => Infinity a
  | Finite _, Infinity b => Infinity b
  | Finite a, Finite b => round_binary64 (a + b)
  end.

(** [x - y] *)
Definition double_sub (x y : double) : double := double_add x (double_opp y).

(** [x * y] *)
Definition double_mul (x y : double) : double :=
  match x, y with
  | NaN, _ | _, NaN => NaN
  | Infinity a, Infinity b => Infinity (xorb a b)
  | Infinity a, Finite q =>
      if Qeq_bool q 0 then NaN else Infinity (xorb a (Qltb q 0))
  | Finite q, Infinity b =>
      if Qeq_bool q 0 then NaN else Infinity (xorb (Qltb q 0) b)
  | Finite a, Finite b => round_binary64 (a * b)
  end.

Definition double_is_zero (x : double) : bool :=
  match x with
  | Finite q => Qeq_bool q 0
  | _ => false
  end.

(** [x / y]: a zero divisor raises. *)
Definition double_div (x y : double) : result double :=
  if double_is_zero y then Raise ZeroDivisionError
  else Ok (match x, y with
           | NaN, _ | _, NaN => NaN
           | Infinity _, Infinity _ => NaN
           | Infinity a, Finite q => Infinity (xorb a (Qltb q 0))
           | Finite _, Infinity _ => Finite 0
           | Finite a, Finite b => round_binary64 (a / b)
           end).

(** [x < y] *)
Definition double_ltb (x y : double) : bool :=
  match x, y with
  | NaN, _ | _, NaN => false
  | Infinity a, Infinity b => a && negb b
  | Infinity a, Finite _ => a
  | Finite _, Infinity b => negb b
  | Finite a, Finite b => Qltb a b
  end.

(** An [int] operand of a float operation: too large an integer raises. *)
Definition double_of_int (n : Z) : result double :=
  match round_binary64 (inject_Z n) with
  | Finite q => Ok (Finite q)
  | _ => Raise OverflowError
  end.

(** [int(round(x))] on a float. *)
Definition double_round (x : double) : result Z :=
  match x with
  | Finite q => Ok (py_round q)
  | Infinity _ => Raise OverflowError
  | NaN => Raise ValueError
  end.

(** The value of a finite double. *)
Definition double_value (x : double) : Q :=
  match x with
  | Finite q => q
  | _ => 0%Q
  end.

(** The float operations of [polygon_area], on doubles and, where the
    rounding is left out, on exact rationals. *)
Class FloatOps (F : Type) : Type := {
  f_zero : F;
  f_two : F;
  f_add : F -> F -> F;
  f_sub : F -> F -> F;
  f_mul : F -> F -> F;
  f_abs : F -> F;
  f_div : F -> F -> result F
}.

#[export] Instance Exact : FloatOps Q := {|
  f_zero := 0%Q;
  f_two := 2.0%Q;
  f_add := Qplus;
  f_sub := Qminus;
  f_mul := Qmult;
  f_abs := Qabs;
  f_div := py_div
|}.

#[export] Instance Binary64 : FloatOps double := {|
  f_zero := Finite 0;
  f_two := Finite 2;
  f_add := double_add;
  f_sub := double_sub;
  f_mul := double_mul;
  f_abs := double_abs;
  f_div := double_div
|}.

(** ** Strings *)

Definition code (c : ascii) : Z := Z.of_N (N_of_ascii c).

Definition between (lo hi n : Z) : bool := (lo <=? n) && (n <=? hi).

(** [str.isspace] on one character (code points below 256). *)
Definition is_space (c : ascii) : bool :=
  let n := code c in
  between 9 13 n || between 28 32 n || (n =? 133) || (n =? 160).

(** [str.lower] on one character (code points below 256). *)
Definition to_lower (c : ascii) : ascii :=
  let n := code c in
  if between 65 90 n || (between 192 222 n && negb (n =? 215))
  then ascii_of_N (Z.to_N (n + 32))
  else c.

Fixpoint str_lower (s : string) : string :=
  match s with
  | EmptyString => EmptyString
  | String c s' => String (to_lower c) (str_lower s')
  end.

Fixpoint str_lstrip (s : string) : string :=
  match s with
  | EmptyString => EmptyString
  | String c s' => if is_space c then str_lstrip s' else s
  end.

Fixpoint str_rstrip (s : string) : string :=
  match s with
  | EmptyString => EmptyString
  | String c s' =>
      match str_rstrip s' with
      | EmptyString => if is_space c then EmptyString else String c EmptyString
      | r => String c r
      end
  end.

Definition str_strip (s : string) : string := str_rstrip (str_lstrip s).

Fixpoint str_startswith (s p : string) : bool :=
  match p, s with
  | EmptyString, _ => true
  | String a p', String b s' => Ascii.eqb a b && str_startswith s' p'
  | String _ _, EmptyString => false
  end.

(** [s[i:j]] for [0 <= i <= j]. *)
Definition str_slice (s : string) (i j : nat) : string := substring i (j - i) s.

(** ** [int(s, 16)] *)

Definition hex_digit_value (c : ascii) : option Z :=
  let n := code c in
  if between 48 57 n then Some (n - 48)
  else if between 97 102 n then Some (n - 87)
  else if between 65 70 n then Some (n - 55)
  else None.

(** Whitespace of the integer parser: tab, newline, vertical tab, form feed,
    carriage return, space. *)
Definition is_c_space (c : ascii) : bool :=
  let n := code c in between 9 13 n || (n =? 32).

(** Before parsing, a non-ASCII space becomes a space and any other
    non-ASCII character becomes [?]. *)
Definition to_parse_char (c : ascii) : ascii :=
  if code c <=? 127 then c
  else if is_space c then " "%char else "?"%char.

Fixpoint to_parse_string (s : string) : string :=
  match s with
  | EmptyString => EmptyString
  | String c s' => String (to_parse_char c) (to_parse_string s')
  end.

Fixpoint skip_c_space (s : string) : string :=
  match s with
  | EmptyString => EmptyString
  | String c s' => if is_c_space c then skip_c_space s' else s
  end.

(** The digit loop: digits, with single underscores between them.  Returns
    the value, whether a digit was read, and the rest of the string. *)
Fixpoint scan_digits (prev_us : bool) (acc : Z) (seen : bool) (s : string)
  : option (Z * bool * string) :=
  match s with
  | EmptyString => if prev_us then None else Some (acc, seen, s)
  | String c s' =>
      if Ascii.eqb c "_" then
        if prev_us then None else scan_digits true acc seen s'
      else
        match hex_digit_value c with
        | Some d => scan_digits false (16 * acc + d) true s'
        | None => if prev_us then None else Some (acc, seen, s)
        end
  end.

Definition int_base16 (s : string) : result Z :=
  let s := skip_c_space (to_parse_string s) in
  let '(sign, s) :=
    match s with
    | String "+" s' => (1, s')
    | String "-" s' => (-1, s')
    | _ => (1, s)
    end in
  let s :=
    match s with
    | String "0" (String c s') =>
        if Ascii.eqb c "x" || Ascii.eqb c "X" then
          match s' with
          | String "_" s'' => s''
          | _ => s'
          end
        else s
    | _ => s
    end in
  match s with
  | String "_" _ => Raise ValueError
  | _ =>
      match scan_digits false 0 false s with
      | None => Raise ValueError
      | Some (v, seen, rest) =>
          if negb seen then Raise ValueError
          else match skip_c_space rest with
               | EmptyString => Ok (sign * v)
               | _ => Raise ValueError
               end
      end
  end.

(* ================================================================== *)
(** * Palette *)

Open Scope string_scope.

Definition C1_COYOTE : string := "#81613C".
Definition C2_TERRE : string := "#7C6D66".
Definition C3_OLIVE : string := "#4B5320".
Definition C4_VERDIG : string := "#7A8B7A".

Definition PALETTE : list (string * string) :=
  [("C1", C1_COYOTE); ("C2", C2_TERRE); ("C3", C3_OLIVE); ("C4", C4_VERDIG)].

(** [d[k]] on a dictionary kept as an association list. *)
Fixpoint dict_get {V : Type} (d : list (string * V)) (k : string) : result V :=
  match d with
  | [] => Raise KeyError
  | (k', v) :: d' => if String.eqb k' k then Ok v else dict_get d' k
  end.

(** [d[k] = v] for a key already present keeps the key's position. *)
Fixpoint dict_set {V : Type} (d : list (string * V)) (k : string) (v : V)
  : list (string * V) :=
  match d with
  | [] => [(k, v)]
  | (k', v') :: d' =>
      if String.eqb k' k then (k', v) :: d' else (k', v') :: dict_set d' k v
  end.

Close Scope string_scope.

(* ================================================================== *)
(** * Geometry and utilities *)

Definition Point : Type := (Q * Q)%type.

Definition hex_to_rgb (h : string) : result (Z * Z * Z) :=
  let h := str_lower (str_strip h) in
  if negb (str_startswith h "#"%string) || negb (Nat.eqb (String.length h) 7)
  then Raise ValueError
  else
    (r <- int_base16 (str_slice h 1 3) ;;
     g <- int_base16 (str_slice h 3 5) ;;
     b <- int_base16 (str_slice h 5 7) ;;
     Ok (r, g, b))%result.









(** The code points of the characters of the model. *)
Definition all_codes : list nat := seq 0 256.



Definition polygon_area {F : Type} {O : FloatOps F} (poly : list (F * F))
  : result F :=
  let n := Z.of_nat (List.length poly) in
  (s <- rfold (fun s i =>
                 '(x1, y1) <- list_get poly i ;;
                 k <- py_mod (i + 1) n ;;
                 '(x2, y2) <- list_get poly k ;;
                 Ok (f_add s (f_sub (f_mul x1 y2) (f_mul x2 y1))))
              (py_range 0 n) f_zero ;;
   f_div (f_abs s) f_two)%result.

(** The shoelace sum as the specification words it: over the edges of the
    closed polygon (the last point connects to the first), taken in order,
    the sum of [x1 * y2 - x2 * y1]. *)
Definition cross {F : Type} {O : FloatOps F} (p q : F * F) : F :=
  f_sub (f_mul (fst p) (snd q)) (f_mul (fst q) (snd p)).

Definition spec_edges {A : Type} (poly : list A) : list (A * A) :=
  combine poly (tl poly ++ firstn 1 poly).

Definition spec_shoelace_sum {F : Type} {O : FloatOps F} (poly : list (F * F))
  : F :=
  fold_left (fun s e => f_add s (cross (fst e) (snd e))) (spec_edges poly) f_zero.

Open Scope Q_scope.

(** All points lie on one line [a * x + b * y = c]. *)
Definition collinear (poly : list Point) : Prop :=
  exists a b c : Q,
    ~ (a == 0 /\ b == 0)
    /\ Forall (fun p => a * fst p + b * snd p == c) poly.

(** The points that a list of pairs of literals denotes, and the exact
    position of a point given in doubles. *)
Definition double_points (poly : list Point) : list (double * double) :=
  map (fun '(x, y) => (round_binary64 x, round_binary64 y)) poly.

Definition exact_points (poly : list (double * double)) : list Point :=
  map (fun '(x, y) => (double_value x, double_value y)) poly.

(** A self-crossing quadrilateral, a triangle far from the origin whose
    products are rounded, a triangle whose products underflow, and three
    points on the line [y = 0.1]. *)
Definition bowtie : list (double * double) :=
  double_points [(0, 0); (1, 1); (1, 0); (0, 1)].

Definition far_triangle : list (double * double) :=
  double_points [(100000000, 100000000); (100000001, 100000000);
                 (100000000, 100000001)].

Definition tiny_triangle : list (double * double) :=
  double_points [(0, 0); (pow2 (-600), 0); (0, pow2 (-600))].

Definition level_points : list (double * double) :=
  double_points [(0, 0.1); (1, 0.1); (0.1, 0.1)].

(** The sums are exact: what is proved of a translate is which points it
    has and in which order, not the value of a rounded sum. *)
Definition translate_points (poly : list Point) (dx dy : Q) : list Point :=
  map (fun '(x, y) => (x + dx, y + dy)) poly.

(** The nine copies of a polygon drawn by the renderers. *)
Definition wrapped_instances (poly : list Point) (W H : Z) : list (list Point) :=
  fold_left
    (fun inst dx =>
       fold_left
         (fun inst dy =>
            inst ++ [map (fun '(x, y) => (x + inject_Z dx, y + inject_Z dy)) poly])
         [(- H)%Z; 0%Z; H] inst)
    [(- W)%Z; 0%Z; W] [].

(** The offsets of the wrap, following the specification: the grid
    [{-S, 0, S} x {-S, 0, S}], first coordinate outermost. *)
Definition spec_wrap_offsets (S : Z) : list (Z * Z) :=
  list_prod [(- S)%Z; 0%Z; S] [(- S)%Z; 0%Z; S].

(** The translate of a polygon by an integer offset. *)
Definition translate_by (poly : list Point) (off : Z * Z) : list Point :=
  translate_points poly (inject_Z (fst off)) (inject_Z (snd off)).

Close Scope Q_scope.

(* ================================================================== *)
(** * The random source *)

(** A program that draws: it returns, raises, asks its own generator object
    [rng] for [rng.random()] or for [rng._randbelow(n)], or asks the
    generator of the [random] module for [random.random()], and goes on with
    the answer.  The module's generator belongs to the whole process: no
    [random.Random(seed)] sets it, and what it answers depends on everything
    that has drawn from it before. *)
Inductive rand (A : Type) : Type :=
| Ret (a : A)
| Throw (e : exn)
| DrawRandom (k : Q -> rand A)
| DrawBelow (n : Z) (k : Z -> rand A)
| DrawModule (k : Q -> rand A).

Arguments Ret {A} a.
Arguments Throw {A} e.
Arguments DrawRandom {A} k.
Arguments DrawBelow {A} n k.
Arguments DrawModule {A} k.

Fixpoint bind {A B : Type} (p : rand A) (f : A -> rand B) : rand B :=
  match p with
  | Ret a => f a
  | Throw e => Throw e
  | DrawRandom k => DrawRandom (fun r => bind (k r) f)
  | DrawBelow n k => DrawBelow n (fun i => bind (k i) f)
  | DrawModule k => DrawModule (fun r => bind (k r) f)
  end.

(** Every draw of the program is made on its own generator object. *)
Fixpoint seeded_only {A : Type} (p : rand A) : Prop :=
  match p with
  | Ret _ => True
  | Throw _ => True
  | DrawRandom k => forall r, seeded_only (k r)
  | DrawBelow _ k => forall i, seeded_only (k i)
  | DrawModule _ => False
  end.

Definition lift {A : Type} (r : result A) : rand A :=
  match r with
  | Ok a => Ret a
  | Raise e => Throw e
  end.

Declare Scope rand_scope.
Delimit Scope rand_scope with rand.
Notation "x <- c1 ;; c2" := (bind c1 (fun x => c2))
  (at level 61, c1 at next level, right associativity) : rand_scope.
Notation "' pat <- c1 ;; c2" := (bind c1 (fun x => match x with pat => c2 end))
  (at level 61, pat pattern, c1 at next level, right associativity) : rand_scope.

(** A [for] loop over a list whose body draws. *)
Fixpoint for_each {A S : Type} (l : list A) (body : S -> A -> rand S) (s : S)
  : rand S :=
  match l with
  | [] => Ret s
  | x :: l' => bind (body s x) (for_each l' body)
  end.

(** The generators a call finds: the state of the process as far as
    drawing goes, [Random(seed)], which puts a new generator object in its
    initial state, the two primitive draws on that object, and the draw on
    the module's generator; each draw returns the value drawn and the next
    state. *)
Class RandomSource : Type := {
  gen_state : Type;
  gen_seed : Z -> gen_state;
  gen_random : gen_state -> Q * gen_state;
  gen_randbelow : Z -> gen_state -> Z * gen_state;
  gen_module : gen_state -> Q * gen_state
}.

(** [_randbelow(n)] answers in [range(n)] when [n] is positive. *)
Definition randbelow_in_range (G : RandomSource) : Prop :=
  forall n s, 0 < n -> 0 <= fst (gen_randbelow n s) < n.

Fixpoint run {G : RandomSource} {A : Type} (p : rand A) (s : gen_state)
  : result A * gen_state :=
  match p with
  | Ret a => (Ok a, s)
  | Throw e => (Raise e, s)
  | DrawRandom k => let '(r, s') := gen_random s in run (k r) s'
  | DrawBelow n k => let '(i, s') := gen_randbelow n s in run (k i) s'
  | DrawModule k => let '(r, s') := gen_module s in run (k r) s'
  end.

(** Two calls find generator objects that deliver the same stream of draws
    from every seed: the states are related by [R] at the start and after
    each draw on the object, and related states answer each such draw
    alike.  Nothing is asked of the module's generator, which the two calls
    may find in different states. *)
Record same_stream (G1 G2 : RandomSource)
    (R : @gen_state G1 -> @gen_state G2 -> Prop) : Prop := {
  same_seed : forall seed, R (@gen_seed G1 seed) (@gen_seed G2 seed);
  same_random : forall s1 s2, R s1 s2 ->
    fst (@gen_random G1 s1) = fst (@gen_random G2 s2)
    /\ R (snd (@gen_random G1 s1)) (snd (@gen_random G2 s2));
  same_randbelow : forall n s1 s2, R s1 s2 ->
    fst (@gen_randbelow G1 n s1) = fst (@gen_randbelow G2 n s2)
    /\ R (snd (@gen_randbelow G1 n s1)) (snd (@gen_randbelow G2 n s2))
}.

(** What [_randbelow(n)] may answer: anything at all, or a member of
    [range(n)] when [n] is positive. *)
Definition any_draw (n i : Z) : Prop := True.

Definition in_range_draw (n i : Z) : Prop := 0 < n -> 0 <= i < n.

(** [wp C p Q]: whatever the draws answer (those of [_randbelow] within
    [C]), the outcome of [p] satisfies [Q]. *)
Fixpoint wp {A : Type} (C : Z -> Z -> Prop) (p : rand A)
    (Q : result A -> Prop) : Prop :=
  match p with
  | Ret a => Q (Ok a)
  | Throw e => Q (Raise e)
  | DrawRandom k => forall r, wp C (k r) Q
  | DrawBelow n k => forall i, C n i -> wp C (k i) Q
  | DrawModule k => forall r, wp C (k r) Q
  end.

(** The outcome is a value, and the value satisfies [P]. *)
Definition returns {A : Type} (P : A -> Prop) (r : result A) : Prop :=
  match r with
  | Ok a => P a
  | Raise _ => False
  end.

(** If the outcome is a value, the value satisfies [P]. *)
Definition if_returns {A : Type} (P : A -> Prop) (r : result A) : Prop :=
  match r with
  | Ok a => P a
  | Raise _ => True
  end.

Open Scope rand_scope.

Definition rng_random : rand Q := DrawRandom Ret.

Definition rng_randbelow (n : Z) : rand Z := DrawBelow n Ret.

(** [rng.uniform(a, b)] *)
Definition rng_uniform (a b : Q) : rand Q :=
  r <- rng_random ;; Ret (a + (b - a) * r)%Q.

(** [rng.randrange(start, stop)] *)
Definition rng_randrange (start stop : Z) : rand Z :=
  let width := stop - start in
  if 0 <? width then r <- rng_randbelow width ;; Ret (start + r)
  else Throw ValueError.

(** [rng.randint(a, b)] *)
Definition rng_randint (a b : Z) : rand Z := rng_randrange a (b + 1).

(** [l[i] = v] *)
Definition list_set {A : Type} (l : list A) (i : Z) (v : A) : result (list A) :=
  let n := Z.of_nat (List.length l) in
  let j := if i <? 0 then i + n else i in
  if (j <? 0) || (n <=? j) then Raise IndexError
  else Ok (firstn (Z.to_nat j) l ++ v :: skipn (S (Z.to_nat j)) l).

(** [rng.shuffle(x)] *)
Definition rng_shuffle {A : Type} (x : list A) : rand (list A) :=
  for_each (rev (py_range 1 (Z.of_nat (List.length x))))
    (fun x i =>
       j <- rng_randbelow (i + 1) ;;
       xj <- lift (list_get x j) ;;
       xi <- lift (list_get x i) ;;
       x <- lift (list_set x i xj) ;;
       lift (list_set x j xi))
    x.

(* ================================================================== *)
(** * The math library *)

Class Libm : Type := {
  cos : Q -> Q;
  sin : Q -> Q;
  hypot : Q -> Q -> Q
}.

(** [math.hypot] is a length. *)
Definition hypot_nonneg (M : Libm) : Prop := forall x y, (0 <= hypot x y)%Q.

(** [math.pi], the double nearest to pi. *)
Definition math_pi : Q := 884279719003555 # 281474976710656.

(** [math.radians(x)] *)
Definition math_radians (x : Q) : Q := (x * (math_pi / 180))%Q.

Definition rotate_points {M : Libm} (poly : list Point) (angle_rad : Q)
  : list Point :=
  let ca := cos angle_rad in
  let sa := sin angle_rad in
  fold_left
    (fun out '(x, y) => out ++ [(x * ca - y * sa, x * sa + y * ca)%Q])
    poly [].

(* ================================================================== *)
(** * Jagged blob *)

Definition random_blob {M : Libm} (r_min r_max : Q)
    (n_base jag_subdiv : Z * Z) (jag_amp : Q * Q) : rand (list Point) :=
  n <- rng_randint (fst n_base) (snd n_base) ;;
  base_r <- rng_uniform r_min r_max ;;
  pts <- for_each (py_range 0 n)
           (fun pts i =>
              step <- lift (py_div (2 * math_pi) (inject_Z n)) ;;
              u <- rng_uniform (-18) 18 ;;
              let a := (step * inject_Z i + math_radians u)%Q in
              v <- rng_uniform 0.62 1.05 ;;
              let r := (base_r * v)%Q in
              Ret (pts ++ [(cos a * r, sin a * r)%Q]))
           [] ;;
  for_each (py_range 0 n)
    (fun dent i =>
       '(x1, y1) <- lift (list_get pts i) ;;
       i1 <- lift (py_mod (i + 1) n) ;;
       '(x2, y2) <- lift (list_get pts i1) ;;
       let dent := dent ++ [(x1, y1)] in
       k <- rng_randint (fst jag_subdiv) (snd jag_subdiv) ;;
       for_each (py_range 1 (k + 1))
         (fun dent j =>
            t <- lift (py_div (inject_Z j) (inject_Z (k + 1))) ;;
            let mx := (x1 + (x2 - x1) * t)%Q in
            let my := (y1 + (y2 - y1) * t)%Q in
            let vx := (x2 - x1)%Q in
            let vy := (y2 - y1)%Q in
            let L := (hypot vx vy + 1e-9)%Q in
            nx <- lift (py_div (- vy) L) ;;
            ny <- lift (py_div vx L) ;;
            u <- rng_uniform (fst jag_amp) (snd jag_amp) ;;
            let amp := (base_r * u)%Q in
            r <- rng_random ;;
            let sign := if Qltb r 0.5 then (-1)%Q else 1%Q in
            Ret (dent ++ [(mx + nx * amp * sign, my + ny * amp * sign)%Q]))
         dent)
    [].

(* ================================================================== *)
(** * Shapes *)

Record Shape : Type := {
  poly : list Point;
  color_key : string;
  z : Z
}.

(** A macro shape and a micro shape, by draw order and colour role. *)
Definition is_macro (s : Shape) : Prop :=
  z s = 10 /\ (color_key s = "C1"%string \/ color_key s = "C3"%string).

Definition is_micro (s : Shape) : Prop :=
  z s = 30 /\ (color_key s = "C4"%string \/ color_key s = "C2"%string).

(** Non-decreasing keys. *)
Definition key_le {A : Type} (key : A -> Z) (a b : A) : Prop := key a <= key b.

(** [l.sort(key=...)]: the stable sort, written as an insertion sort that
    puts an element before the first one with a key at least as large. *)
Fixpoint insert_by {A : Type} (key : A -> Z) (x : A) (l : list A) : list A :=
  match l with
  | [] => [x]
  | y :: l' => if key x <=? key y then x :: l else y :: insert_by key x l'
  end.

Definition list_sort {A : Type} (key : A -> Z) (l : list A) : list A :=
  fold_right (insert_by key) [] l.

(* ================================================================== *)
(** * Pattern generation *)

(** The three macro size-class counts [(n_mid, n_big, n_huge)]. *)
Definition macro_class_counts (macro_count : Z) : Z * Z * Z :=
  let n_mid := py_round (inject_Z macro_count * 0.50)%Q in
  let n_big := py_round (inject_Z macro_count * 0.30)%Q in
  let n_huge := macro_count - n_mid - n_big in
  (n_mid, n_big, n_huge).

(** The huge-class count on its own. *)
Definition n_huge (macro_count : Z) : Z := snd (macro_class_counts macro_count).

(** [macro_sizes_mm] before the shuffle. *)
Definition macro_sizes_mm (macro_count : Z) : list (Z * Z) :=
  let '(n_mid, n_big, n_huge) := macro_class_counts macro_count in
  (([] ++ list_repeat (50, 60) n_mid)
      ++ list_repeat (70, 80) n_big)
      ++ list_repeat (90, 110) n_huge.

Definition size_eqb (a b : Z * Z) : bool :=
  (fst a =? fst b) && (snd a =? snd b).

(** One turn of the macro loop: the shape list so far and the size pair. *)
Definition place_macro {M : Libm} (px_per_mm : Q) (W H : Z)
    (shapes : list Shape) (size : Z * Z) : rand (list Shape) :=
  let '(a_mm, b_mm) := size in
  let r_min := (inject_Z a_mm * px_per_mm * 0.50)%Q in
  let r_max := (inject_Z b_mm * px_per_mm * 0.60)%Q in
  poly0 <- random_blob r_min r_max (7, 13) (1, 3) (0.10, 0.30)%Q ;;
  ang <- rng_uniform 0 (2 * math_pi) ;;
  let poly1 := rotate_points poly0 ang in
  sx <- rng_uniform 0.75 1.35 ;;
  sy <- rng_uniform 0.75 1.35 ;;
  let poly2 := map (fun '(x, y) => (x * sx, y * sy)%Q) poly1 in
  cx <- rng_uniform 0 (inject_Z W) ;;
  cy <- rng_uniform 0 (inject_Z H) ;;
  let poly := translate_points poly2 cx cy in
  let size_class :=
    if size_eqb (a_mm, b_mm) (50, 60) then "mid"%string
    else if size_eqb (a_mm, b_mm) (70, 80) then "big"%string
    else "huge"%string in
  color_key <-
    (if String.eqb size_class "big" || String.eqb size_class "huge" then
       r <- rng_random ;; Ret (if Qltb r 0.55 then "C1"%string else "C3"%string)
     else
       r <- rng_random ;; Ret (if Qltb r 0.70 then "C3"%string else "C1"%string)) ;;
  Ret (shapes ++ [{| poly := poly; color_key := color_key; z := 10 |}]).

(** One turn of the micro loop. *)
Definition place_micro {M : Libm} (px_per_mm : Q)
    (shapes : list Shape) (_ : Z) : rand (list Shape) :=
  micro_mm <- rng_uniform 8 25 ;;
  let r_min := (micro_mm * px_per_mm * 0.35)%Q in
  let r_max := (micro_mm * px_per_mm * 0.55)%Q in
  micro0 <- random_blob r_min r_max (6, 10) (1, 2) (0.12, 0.28)%Q ;;
  ang <- rng_uniform 0 (2 * math_pi) ;;
  let micro1 := rotate_points micro0 ang in
  idx <- rng_randrange 0 (Z.of_nat (List.length shapes)) ;;
  tgt <- lift (list_get shapes idx) ;;
  let tgt_poly := poly tgt in
  k <- rng_randrange 0 (Z.of_nat (List.length tgt_poly)) ;;
  '(x1, y1) <- lift (list_get tgt_poly k) ;;
  k1 <- lift (py_mod (k + 1) (Z.of_nat (List.length tgt_poly))) ;;
  '(x2, y2) <- lift (list_get tgt_poly k1) ;;
  t <- rng_uniform 0.15 0.85 ;;
  let px := (x1 + (x2 - x1) * t)%Q in
  let py := (y1 + (y2 - y1) * t)%Q in
  let vx := (x2 - x1)%Q in
  let vy := (y2 - y1)%Q in
  let L := (hypot vx vy + 1e-9)%Q in
  nx <- lift (py_div (- vy) L) ;;
  ny <- lift (py_div vx L) ;;
  u <- rng_uniform (-1.1) 1.1 ;;
  let bite := (u * (micro_mm * px_per_mm * 0.55))%Q in
  let px2 := (px + nx * bite)%Q in
  let py2 := (py + ny * bite)%Q in
  r <- rng_random ;;
  '(px2, py2) <-
    (if Qltb r 0.20 then
       v <- rng_uniform 0.8 1.4 ;;
       let push := (v * (micro_mm * px_per_mm))%Q in
       Ret (px2 + nx * push, py2 + ny * push)%Q
     else Ret (px2, py2)) ;;
  let micro := translate_points micro1 px2 py2 in
  r <- rng_random ;;
  let color_key := if Qltb r 0.68 then "C4"%string else "C2"%string in
  Ret (shapes ++ [{| poly := micro; color_key := color_key; z := 30 |}]).

(** The shape list in generation order, before the final sort. *)
Definition generate_shapes {M : Libm} (px_per_mm : Q) (W H : Z)
    (macro_count micro_count : Z) : rand (list Shape) :=
  sizes <- rng_shuffle (macro_sizes_mm macro_count) ;;
  shapes <- for_each sizes (place_macro px_per_mm W H) [] ;;
  for_each (py_range 0 micro_count) (place_micro px_per_mm) shapes.

(** [int(round(tile_mm * px_per_mm))], in double precision: the integer
    becomes a double, the product is rounded to a double, and the double is
    rounded to an integer, ties to the even one.  [px_per_mm] is given as
    the rational its literal spells and is read as the double nearest to
    it. *)
Definition tile_px (tile_mm : Z) (px_per_mm : Q) : result Z :=
  (t <- double_of_int tile_mm ;;
   double_round (double_mul t (round_binary64 px_per_mm)))%result.

(** The draws of [generate_camo], from a generator already seeded and with
    the tile size computed. *)
Definition generate_camo_draws {M : Libm} (W : Z) (px_per_mm : Q)
    (macro_count micro_count : Z) : rand (Z * list Shape) :=
  let H := W in
  shapes <- generate_shapes px_per_mm W H macro_count micro_count ;;
  Ret (W, list_sort z shapes).

Definition generate_camo {G : RandomSource} {M : Libm}
    (seed tile_mm : Z) (px_per_mm : Q) (macro_count micro_count : Z)
  : result (Z * list Shape) :=
  let rng := gen_seed seed in
  (W <- tile_px tile_mm px_per_mm ;;
   fst (run (generate_camo_draws W px_per_mm macro_count micro_count) rng))%result.

(** [generate_camo] stopped before its last statement, the sort. *)
Definition generate_camo_unsorted {G : RandomSource} {M : Libm}
    (seed tile_mm : Z) (px_per_mm : Q) (macro_count micro_count : Z)
  : result (list Shape) :=
  let rng := gen_seed seed in
  (W <- tile_px tile_mm px_per_mm ;;
   fst (run (generate_shapes px_per_mm W W macro_count micro_count) rng))%result.

Close Scope rand_scope.

(* ================================================================== *)
(** * The area summary of [main] *)

Definition report_order : list string := ["C1"; "C3"; "C2"; "C4"]%string.

(** The ratios printed by [main], in the order printed. *)
Definition area_report (shapes : list Shape) : result (list (string * Q)) :=
  (total_area <- rfold (fun acc s => a <- polygon_area (poly s) ;; Ok (acc + a)%Q)
                       shapes 0%Q ;;
   area_by <- rfold (fun d s =>
                       old <- dict_get d (color_key s) ;;
                       a <- polygon_area (poly s) ;;
                       Ok (dict_set d (color_key s) (old + a)%Q))
                    shapes
                    [("C1", 0.0); ("C2", 0.0); ("C3", 0.0); ("C4", 0.0)]%string%Q ;;
   rfold (fun out k =>
            ratio <- (if Qltb 0 total_area
                      then num <- dict_get area_by k ;; py_div num total_area
                      else Ok 0.0%Q) ;;
            Ok (out ++ [(k, ratio)]))
         report_order [])%result.

(* ================================================================== *)
(** * A small generator and math library to run the definitions with *)

Module Reference.

(** A linear congruential generator on 31 bits. *)
Definition lcg_next (s : Z) : Z := (1103515245 * s + 12345) mod 2147483648.

Definition Lcg : RandomSource := {|
  gen_state := Z;
  gen_seed := fun seed => seed mod 2147483648;
  gen_random := fun s =>
    let s' := lcg_next s in (Qmake s' 2147483648, s');
  gen_randbelow := fun n s =>
    let s' := lcg_next s in ((s' / 65536) mod n, s');
  gen_module := fun s => (0%Q, s)
|}.

(** The same generator as an object that also counts its draws, in a
    process whose module generator answers otherwise. *)
Definition LcgCounting : RandomSource := {|
  gen_state := Z * nat;
  gen_seed := fun seed => (seed mod 2147483648, 0%nat);
  gen_random := fun st =>
    let s' := lcg_next (fst st) in (Qmake s' 2147483648, (s', S (snd st)));
  gen_randbelow := fun n st =>
    let s' := lcg_next (fst st) in ((s' / 65536) mod n, (s', S (snd st)));
  gen_module := fun st => ((1 # 2)%Q, st)
|}.

(** Polynomial stand-ins for the trigonometric functions and the
    taxicab length for [hypot]. *)
Definition Poly : Libm := {|
  cos := fun x => (1 - x * x / 2)%Q;
  sin := fun x => x;
  hypot := fun x y => (Qabs x + Qabs y)%Q
|}.

End Reference.

(* ================================================================== *)
(** * Rendering *)

(** [str(n)] for an integer. *)
Definition Z_to_string (n : Z) : string := NilZero.string_of_int (Z.to_int n).

(** The double quote and the newline. *)
Definition dq : string := String "034"%char EmptyString.

Definition nl : string := String "010"%char EmptyString.

(** [sep.join(parts)] *)
Fixpoint str_join (sep : string) (parts : list string) : string :=
  match parts with
  | [] => EmptyString
  | p :: rest =>
      match rest with
      | [] => p
      | _ :: _ => (p ++ sep ++ str_join sep rest)%string
      end
  end.

(** [f"{x:.2f}"]: the nearest multiple of 0.01, ties to the even one, with
    the sign of [x]. *)
Definition two_digits (n : Z) : string :=
  ((if (n <? 10)%Z then "0" else "") ++ Z_to_string n)%string.

Definition format_2f (x : Q) : string :=
  let c := Z.abs (py_round (x * 100)%Q) in
  ((if Qltb x 0 then "-" else "")
     ++ Z_to_string (c / 100)%Z ++ "." ++ two_digits (c mod 100)%Z)%string.

(** [pts_str] of [render_svg]. *)
Definition pts_str (poly : list Point) : string :=
  str_join " " (map (fun '(x, y) => (format_2f x ++ "," ++ format_2f y)%string) poly).

(** The line [f'<polygon points="{pts_str(poly)}" fill="{fill}" />']. *)
Definition svg_polygon (fill : string) (poly : list Point) : string :=
  ("<polygon points=" ++ dq ++ pts_str poly ++ dq ++ " fill=" ++ dq ++ fill ++ dq
   ++ " />")%string.

(** The lines [render_svg] collects. *)
Definition render_svg_lines (W : Z) (shapes : list Shape) : result (list string) :=
  let w := Z_to_string W in
  let lines := [] in
  let lines :=
    lines ++ [("<?xml version=" ++ dq ++ "1.0" ++ dq ++ " encoding=" ++ dq
               ++ "UTF-8" ++ dq ++ "?>")%string] in
  let lines :=
    lines ++ [("<svg xmlns=" ++ dq ++ "http://www.w3.org/2000/svg" ++ dq
               ++ " width=" ++ dq ++ w ++ dq ++ " height=" ++ dq ++ w ++ dq
               ++ " viewBox=" ++ dq ++ "0 0 " ++ w ++ " " ++ w ++ dq
               ++ ">")%string] in
  let lines :=
    lines ++ [("<rect x=" ++ dq ++ "0" ++ dq ++ " y=" ++ dq ++ "0" ++ dq
               ++ " width=" ++ dq ++ w ++ dq ++ " height=" ++ dq ++ w ++ dq
               ++ " fill=" ++ dq ++ C3_OLIVE ++ dq ++ "/>")%string] in
  (lines <- rfold (fun lines s =>
                     fill <- dict_get PALETTE (color_key s) ;;
                     Ok (fold_left
                           (fun lines poly => lines ++ [svg_polygon fill poly])
                           (wrapped_instances (poly s) W W) lines))
                  shapes lines ;;
   Ok (lines ++ ["</svg>"%string]))%result.

(** The text [render_svg] writes to the file. *)
Definition render_svg (W : Z) (shapes : list Shape) : result string :=
  (lines <- render_svg_lines W shapes ;; Ok (str_join nl lines))%result.

(** The calls [render_png] makes on the image: [Image.new] with a size and a
    background colour, then one [draw.polygon] per wrapped instance, in
    order.  What Pillow does with the calls is outside the model. *)
Record Canvas : Type := {
  canvas_size : Z * Z;
  canvas_background : Z * Z * Z;
  canvas_polygons : list (list (Z * Z) * (Z * Z * Z))
}.

Definition render_png (W : Z) (shapes : list Shape) : result Canvas :=
  (background <- hex_to_rgb C3_OLIVE ;;
   drawn <- rfold (fun drawn s =>
                     hex <- dict_get PALETTE (color_key s) ;;
                     rgb <- hex_to_rgb hex ;;
                     Ok (fold_left
                           (fun drawn poly =>
                              drawn ++ [(map (fun '(x, y) => (py_round x, py_round y))
                                             poly, rgb)])
                           (wrapped_instances (poly s) W W) drawn))
                  shapes [] ;;
   Ok {| canvas_size := (W, W);
         canvas_background := background;
         canvas_polygons := drawn |})%result.

(** [main] after the arguments are parsed: the pattern, the two renderings
    and the area summary. *)
Definition main_outputs {G : RandomSource} {M : Libm}
    (seed tile_mm : Z) (px_per_mm : Q) (macro_count micro_count : Z)
  : result (Canvas * string * list (string * Q)) :=
  ('(W, shapes) <- generate_camo seed tile_mm px_per_mm macro_count micro_count ;;
   png <- render_png W shapes ;;
   svg <- render_svg W shapes ;;
   report <- area_report shapes ;;
   Ok (png, svg, report))%result.

(** The check that a group of two characters read by [int_base16] gives a
    value from -15 to 255. *)
Definition pair_bounded (a b : ascii) : bool :=
  match int_base16 (String a (String b EmptyString)) with
  | Ok v => (-15 <=? v) && (v <=? 255)
  | Raise _ => true
  end.

(** The colour keys of the palette. *)
Definition palette_keys : list string := map fst PALETTE.

(** The number of points of a macro blob and of a micro blob. *)
Definition macro_points (n : Z) : Prop := 14 <= n <= 52.

Definition micro_points (n : Z) : Prop := 12 <= n <= 30.

(** A shape with the number of points its draw order allows. *)
Definition sized (s : Shape) : Prop :=
  (z s = 10 /\ macro_points (Z.of_nat (List.length (poly s))))
  \/ (z s = 30 /\ micro_points (Z.of_nat (List.length (poly s)))).

(** The colour key of a shape is one of the four keys of [PALETTE]. *)
Definition palette_key (s : Shape) : Prop := In (color_key s) palette_keys.

(** The area [polygon_area] returns for a polygon. *)
Definition area_of (poly : list Point) : Q :=
  match polygon_area poly with
  | Ok a => a
  | Raise _ => 0%Q
  end.

(** The fill of a shape, as a hex string and as a colour triple. *)
Definition shape_fill (s : Shape) : string :=
  match dict_get PALETTE (color_key s) with
  | Ok hex => hex
  | Raise _ => EmptyString
  end.

Definition shape_rgb (s : Shape) : Z * Z * Z :=
  match hex_to_rgb (shape_fill s) with
  | Ok rgb => rgb
  | Raise _ => (0, 0, 0)
  end.

(** The polygons the renderers draw, each with its shape, in drawing order:
    for each shape in turn its nine wrapped instances. *)
Definition spec_drawn (W : Z) (shapes : list Shape) : list (Shape * list Point) :=
  flat_map (fun s => map (fun p => (s, p)) (wrapped_instances (poly s) W W))
           shapes.

(** [[(int(round(x)), int(round(y))) for (x, y) in poly]] *)
Definition pixel_points (poly : list Point) : list (Z * Z) :=
  map (fun '(x, y) => (py_round x, py_round y)) poly.

(* ================================================================== *)
(** * Rounding and the macro size-class counts *)

Section Rounding.

Open Scope Q_scope.

Lemma py_round_upper (x : Q) : inject_Z (py_round x) <= x + (1 # 2).
Proof.
  unfold py_round; cbv zeta.
  pose proof (Qfloor_le x) as Hlo.
  pose proof (Qlt_floor x) as Hhi.
  rewrite inject_Z_plus in Hhi. change (inject_Z 1) with 1 in Hhi.
  destruct (Qcompare_spec (x - inject_Z (Qfloor x)) (1 # 2)) as [He | Hl | Hg].
  - destruct (Z.even (Qfloor x)).
    + lra.
    + rewrite inject_Z_plus. change (inject_Z 1) with 1. lra.
  - lra.
  - rewrite inject_Z_plus. change (inject_Z 1) with 1. lra.
Qed.

Lemma py_round_lower (x : Q) : x - (1 # 2) <= inject_Z (py_round x).
Proof.
  unfold py_round; cbv zeta.
  pose proof (Qfloor_le x) as Hlo.
  pose proof (Qlt_floor x) as Hhi.
  rewrite inject_Z_plus in Hhi. change (inject_Z 1) with 1 in Hhi.
  destruct (Qcompare_spec (x - inject_Z (Qfloor x)) (1 # 2)) as [He | Hl | Hg].
  - destruct (Z.even (Qfloor x)).
    + lra.
    + rewrite inject_Z_plus. change (inject_Z 1) with 1. lra.
  - lra.
  - rewrite inject_Z_plus. change (inject_Z 1) with 1. lra.
Qed.

Lemma py_round_nonneg (x : Q) : 0 <= x -> (0 <= py_round x)%Z.
Proof.
  intros Hx.
  pose proof (py_round_lower x) as Hlo.
  assert (H : inject_Z (-1) < inject_Z (py_round x)).
  { change (inject_Z (-1)) with (-1 # 1). lra. }
  rewrite <- Zlt_Qlt in H. lia.
Qed.

(** The three counts are never negative and add up to [macro_count]. *)
Lemma macro_class_counts_nonneg (macro_count : Z) :
  (0 <= macro_count)%Z ->
  let '(n_mid, n_big, n_huge) := macro_class_counts macro_count in
  (0 <= n_mid /\ 0 <= n_big /\ 0 <= n_huge
   /\ n_mid + n_big + n_huge = macro_count)%Z.
Proof.
  intros Hn. unfold macro_class_counts.
  set (n_mid := py_round (inject_Z macro_count * 0.50)).
  set (n_big := py_round (inject_Z macro_count * 0.30)).
  assert (Hq : 0 <= inject_Z macro_count).
  { change 0 with (inject_Z 0). now rewrite <- Zle_Qle. }
  assert (Hmid : (0 <= n_mid)%Z).
  { apply py_round_nonneg. change 0.50 with (50 # 100). nra. }
  assert (Hbig : (0 <= n_big)%Z).
  { apply py_round_nonneg. change 0.30 with (30 # 100). nra. }
  repeat split; try assumption; try lia.
  destruct (Z.eq_dec macro_count 0) as [-> | Hnz].
  - subst n_mid n_big. vm_compute. discriminate.
  - assert (H1 : inject_Z 1 <= inject_Z macro_count).
    { rewrite <- Zle_Qle. lia. }
    change (inject_Z 1) with 1 in H1.
    pose proof (py_round_upper (inject_Z macro_count * 0.50)) as Umid.
    pose proof (py_round_upper (inject_Z macro_count * 0.30)) as Ubig.
    fold n_mid in Umid. fold n_big in Ubig.
    change 0.50 with (50 # 100) in Umid. change 0.30 with (30 # 100) in Ubig.
    assert (H : inject_Z (-1) < inject_Z (macro_count - n_mid - n_big)).
    { unfold Z.sub. rewrite !inject_Z_plus, !inject_Z_opp.
      change (inject_Z (-1)) with (-1 # 1). lra. }
    rewrite <- Zlt_Qlt in H. lia.
Qed.

End Rounding.

Lemma macro_sizes_mm_length (macro_count : Z) :
  0 <= macro_count ->
  Z.of_nat (List.length (macro_sizes_mm macro_count)) = macro_count.
Proof.
  intros Hn. pose proof (macro_class_counts_nonneg macro_count Hn) as H.
  unfold macro_sizes_mm.
  destruct (macro_class_counts macro_count) as [[a b] c].
  destruct H as (Ha & Hb & Hc & Hsum).
  unfold list_repeat. rewrite !length_app, !repeat_length. simpl. lia.
Qed.

(** C6, as the code has it.  For every non-negative [macro_count] the
    huge-size-class count [macro_count - round(macro_count * 0.50) -
    round(macro_count * 0.30)] is non-negative; the two rounded counts are
    non-negative as well, the three add up to [macro_count], and for
    [macro_count = 1] the huge count is 1 (both roundings give 0). *)
Theorem n_huge_nonneg :
  forall macro_count : Z,
    0 <= macro_count ->
    0 <= n_huge macro_count
    /\ (let '(n_mid, n_big, h) := macro_class_counts macro_count in
        0 <= n_mid /\ 0 <= n_big /\ h = n_huge macro_count
        /\ n_mid + n_big + h = macro_count)
    /\ macro_class_counts 1 = (0, 0, 1).
Proof.
  intros n Hn. pose proof (macro_class_counts_nonneg n Hn) as H.
  unfold n_huge. destruct (macro_class_counts n) as [[a b] c]. simpl.
  destruct H as (Ha & Hb & Hc & Hsum).
  repeat split; try assumption. 
Qed.

Lemma n_huge_nonneg_witness :
  0 <= 42 /\ 0 <= n_huge 42.
Proof.
  split; [lia | apply (n_huge_nonneg 42); lia].
Defined.

(** C6 as stated fails: no non-negative [macro_count] makes the huge count
    negative, and at the value the claim names, [macro_count = 1], the count
    is 1. *)
Lemma n_huge_never_negative :
  n_huge 1 = 1 /\ ~ (exists macro_count : Z, 0 <= macro_count /\ n_huge macro_count < 0).
Proof.
  split.
  - vm_compute. reflexivity.
  - intros [n [Hn Hneg]].
    pose proof (macro_class_counts_nonneg n Hn) as H.
    unfold n_huge in Hneg. destruct (macro_class_counts n) as [[a b] c].
    simpl in Hneg. lia.
Qed.

(* ================================================================== *)
(** * Wrapped instances *)

Lemma Qplus_inject_0 (x : Q) : (x + inject_Z 0)%Q = x.
Proof.
  destruct x as [n d]. unfold Qplus, inject_Z. simpl.
  f_equal; [lia | apply Pos.mul_1_r].
Qed.

Lemma translate_by_zero (poly : list Point) : translate_by poly (0, 0) = poly.
Proof.
  unfold translate_by, translate_points. simpl.
  induction poly as [| [x y] poly IH]; simpl.
  - reflexivity.
  - now rewrite !Qplus_inject_0, IH.
Qed.

Lemma spec_wrap_offsets_NoDup (S : Z) : S <> 0 -> NoDup (spec_wrap_offsets S).
Proof.
  intros HS. unfold spec_wrap_offsets. simpl.
  repeat (constructor; [simpl; intros H; repeat (destruct H as [H | H]; [inversion H; lia |]); exact H |]).
  constructor.
Qed.

(** C2, as the code has it.  For every polygon and tile size [S],
    [wrapped_instances] returns exactly nine polygons; they are, in order,
    the coordinate-wise translates of the input by the offsets
    [(dx, dy)] with [dx] and [dy] running over [-S], [0], [S]; the fifth has
    offset [(0,0)] and is the input polygon itself.  When [S] is not 0 the
    nine offsets are pairwise distinct, so each offset of
    [{-S,0,S} x {-S,0,S}] is used exactly once; when [S] is 0 all nine
    polygons are the input polygon. *)
Theorem wrapped_instances_grid :
  forall (poly : list Point) (S : Z),
    List.length (wrapped_instances poly S S) = 9%nat
    /\ wrapped_instances poly S S = map (translate_by poly) (spec_wrap_offsets S)
    /\ (forall dx dy, In (dx, dy) (spec_wrap_offsets S)
                      <-> In dx [- S; 0; S] /\ In dy [- S; 0; S])
    /\ nth_error (spec_wrap_offsets S) 4 = Some (0, 0)
    /\ nth_error (wrapped_instances poly S S) 4 = Some poly
    /\ (S <> 0 -> NoDup (spec_wrap_offsets S))
    /\ (S = 0 -> wrapped_instances poly S S = repeat poly 9).
Proof.
  intros poly S.
  assert (E : wrapped_instances poly S S
              = map (translate_by poly) (spec_wrap_offsets S)) by reflexivity.
  split; [| split; [| split; [| split; [| split; [| split]]]]].
  - rewrite E. reflexivity.
  - exact E.
  - intros dx dy. apply in_prod_iff.
  - reflexivity.
  - rewrite E. simpl. now rewrite translate_by_zero.
  - apply spec_wrap_offsets_NoDup.
  - intros ->. rewrite E. simpl. now rewrite translate_by_zero.
Qed.

Lemma wrapped_instances_grid_witness :
  1280 <> 0
  /\ NoDup (spec_wrap_offsets 1280)
  /\ nth_error (wrapped_instances [(3, 4)]%Q 1280 1280) 4 = Some [(3, 4)]%Q.
Proof.
  pose proof (wrapped_instances_grid [(3, 4)]%Q 1280)
    as (_ & _ & _ & _ & Hmid & Hnd & _).
  split; [lia |]. split; [apply Hnd; lia | exact Hmid].
Defined.

(** C2 as stated fails for the tile size 0: the nine instances then all use
    the one offset [(0,0)], so no choice of nine offsets from
    [{-0,0,0} x {-0,0,0}], each used once, gives them. *)
Lemma wrapped_instances_zero_tile :
  wrapped_instances [(1, 2)]%Q 0 0 = repeat [(1, 2)]%Q 9
  /\ ~ (exists offs : list (Z * Z),
          NoDup offs
          /\ (forall o, In o offs <-> In o (spec_wrap_offsets 0))
          /\ wrapped_instances [(1, 2)]%Q 0 0
             = map (translate_by [(1, 2)]%Q) offs).
Proof.
  split; [reflexivity |].
  intros (offs & Hnd & Hin & Heq).
  apply (f_equal (@List.length (list Point))) in Heq.
  rewrite length_map in Heq.
  destruct offs as [| o1 [| o2 rest]]; try discriminate.
  assert (H0 : forall o, In o (spec_wrap_offsets 0) -> o = (0, 0)).
  { intros o Ho. simpl in Ho.
    repeat (destruct Ho as [Ho | Ho]; [now symmetry |]). contradiction. }
  assert (E1 : o1 = (0, 0)) by (apply H0, Hin; now left).
  assert (E2 : o2 = (0, 0)) by (apply H0, Hin; right; now left).
  inversion_clear Hnd as [| ? ? Hnotin _]. apply Hnotin. left. congruence.
Qed.

(* ================================================================== *)
(** * Colour strings *)

Section Colours.

Open Scope string_scope.

Lemma ascii_forall (P : ascii -> bool) :
  forallb (fun n => P (ascii_of_nat n)) all_codes = true ->
  forall c, P c = true.
Proof.
  intros H c. rewrite forallb_forall in H.
  rewrite <- (ascii_nat_embedding c). apply H.
  apply in_seq. pose proof (nat_ascii_bounded c). lia.
Qed.



Lemma to_lower_hash (c : ascii) :
  Ascii.eqb "#" (to_lower c) = Ascii.eqb "#" c.
Proof.
  pose proof (ascii_forall
                (fun c => Bool.eqb (Ascii.eqb "#" (to_lower c)) (Ascii.eqb "#" c))) as H.
  apply eqb_prop. apply H. vm_compute. reflexivity.
Qed.

Lemma str_lower_length (s : string) :
  String.length (str_lower s) = String.length s.
Proof. induction s; simpl; congruence. Qed.

Lemma str_lower_startswith_hash (s : string) :
  str_startswith (str_lower s) "#" = str_startswith s "#".
Proof.
  destruct s as [| c s]; cbn [str_lower str_startswith]; [reflexivity |].
  rewrite to_lower_hash. destruct s; reflexivity.
Qed.








End Colours.




(** The integer parser also takes a sign or a space inside a group. *)
Example hex_to_rgb_signed_groups :
  hex_to_rgb "#+1-f f" = Ok (1, -15, 15).
Proof. reflexivity. Qed.

(* ================================================================== *)
(** * Polygon area *)

Section Area.

Lemma list_get_nth_error {A : Type} (l : list A) (i : nat) (a : A) :
  nth_error l i = Some a -> list_get l (Z.of_nat i) = Ok a.
Proof.
  intros H.
  assert (Hi : (i < List.length l)%nat) by (apply nth_error_Some; congruence).
  unfold list_get; cbv zeta.
  assert (E1 : (Z.of_nat i <? 0)%Z = false) by (apply Z.ltb_ge; lia).
  assert (E2 : (Z.of_nat (List.length l) <=? Z.of_nat i)%Z = false)
    by (apply Z.leb_gt; lia).
  rewrite E1. cbv iota. rewrite E1, E2. cbn [orb].
  now rewrite Nat2Z.id, H.
Qed.

(** A loop over [range(n)] whose body reads the [i]-th element of a list
    of length [n] is a fold over that list. *)
Lemma rfold_indexed {E St : Type}
    (body : St -> Z -> result St) (g : St -> E -> St) :
  forall (suf : list E) (k : nat) (s : St),
    (forall s i e, nth_error suf i = Some e ->
                   body s (Z.of_nat (k + i)) = Ok (g s e)) ->
    rfold body (map (fun i => (0 + Z.of_nat i)%Z) (seq k (List.length suf))) s
    = Ok (fold_left g suf s).
Proof.
  induction suf as [| e suf IH]; intros k s H;
    cbn [List.length seq map rfold fold_left].
  - reflexivity.
  - pose proof (H s 0%nat e eq_refl) as H0.
    rewrite Nat.add_0_r in H0. rewrite Z.add_0_l, H0. cbn [rbind].
    apply IH. intros s' i e' Hi.
    replace (S k + i)%nat with (k + S i)%nat by lia.
    apply H. exact Hi.
Qed.

Lemma nth_error_combine {A B : Type} :
  forall (l : list A) (l' : list B) (i : nat) (a : A) (b : B),
    nth_error (combine l l') i = Some (a, b) ->
    nth_error l i = Some a /\ nth_error l' i = Some b.
Proof.
  induction l as [| x l IH]; intros [| y l'] [| i] a b H; simpl in *;
    try discriminate.
  - inversion H. now split.
  - now apply IH.
Qed.

Lemma spec_edges_length {A : Type} (poly : list A) :
  List.length (spec_edges poly) = List.length poly.
Proof.
  unfold spec_edges. rewrite length_combine, length_app.
  destruct poly as [| p poly]; [reflexivity |].
  cbn [tl firstn List.length]. lia.
Qed.

Lemma spec_edges_nth {A : Type} (poly : list A) (i : nat) (p q : A) :
  nth_error (spec_edges poly) i = Some (p, q) ->
  let n := Z.of_nat (List.length poly) in
  (0 < n)%Z
  /\ nth_error poly i = Some p
  /\ nth_error poly (Z.to_nat ((Z.of_nat i + 1) mod n)) = Some q.
Proof.
  intros H n.
  assert (Hi : (i < List.length poly)%nat).
  { rewrite <- spec_edges_length. apply nth_error_Some. congruence. }
  apply nth_error_combine in H. destruct H as [Hp Hq].
  split; [lia |]. split; [exact Hp |].
  destruct poly as [| p0 rest]; [simpl in Hi; lia |].
  simpl in Hq, Hi. rewrite ?firstn_nil in Hq.
  destruct (Nat.eq_dec (S i) (List.length (p0 :: rest))) as [Elast | Nlast].
  - replace ((Z.of_nat i + 1) mod n)%Z with 0%Z.
    + simpl in Elast. rewrite nth_error_app2 in Hq by lia.
      replace (i - List.length rest)%nat with 0%nat in Hq by lia.
      exact Hq.
    + subst n. replace (Z.of_nat i + 1)%Z with (Z.of_nat (List.length (p0 :: rest))) by lia.
      now rewrite Z.mod_same by (simpl; lia).
  - simpl in Nlast. rewrite nth_error_app1 in Hq by lia.
    rewrite Z.mod_small by (subst n; simpl List.length; lia).
    replace (Z.to_nat (Z.of_nat i + 1)) with (S i) by lia.
    exact Hq.
Qed.

(** The code's loop, with its index arithmetic, computes the shoelace sum
    over the edges, whatever the float arithmetic. *)
Lemma polygon_area_fold {F : Type} {O : FloatOps F} (poly : list (F * F)) :
  polygon_area poly = f_div (f_abs (spec_shoelace_sum poly)) f_two.
Proof.
  unfold polygon_area, spec_shoelace_sum; cbv zeta. unfold py_range.
  rewrite Z.sub_0_r, Nat2Z.id, <- (spec_edges_length poly).
  rewrite (rfold_indexed _ (fun s e => f_add s (cross (fst e) (snd e)))).
  - reflexivity.
  - intros s i [p q] Hi. rewrite Nat.add_0_l, !spec_edges_length.
    apply spec_edges_nth in Hi. cbv zeta in Hi.
    destruct Hi as (Hn & Hp & Hq).
    rewrite (list_get_nth_error _ _ _ Hp).
    destruct p as [x1 y1]. cbn [rbind].
    unfold py_mod.
    destruct (Z.eqb_spec (Z.of_nat (List.length poly)) 0) as [E | _]; [lia |].
    cbn [rbind].
    rewrite <- (Z2Nat.id ((Z.of_nat i + 1) mod Z.of_nat (List.length poly)))
      by (apply Z.mod_pos_bound; lia).
    rewrite (list_get_nth_error _ _ _ Hq).
    destruct q as [x2 y2]. reflexivity.
Qed.

Open Scope Q_scope.

Lemma pow2_pos (e : Z) : 0 < pow2 e.
Proof.
  unfold pow2. destruct (Z.leb_spec 0 e) as [He | He].
  - change 0 with (inject_Z 0). rewrite <- Zlt_Qlt.
    apply Z.pow_pos_nonneg; lia.
  - reflexivity.
Qed.

Lemma Qltb_nonneg (q : Q) : 0 <= q -> Qltb q 0 = false.
Proof.
  intros H. unfold Qltb. apply negb_false_iff. now apply Qle_bool_iff.
Qed.

(** Rounding keeps a number that is not negative on that side. *)
Lemma round_binary64_nonneg (q : Q) :
  0 <= q ->
  round_binary64 q = Infinity false
  \/ exists r : Q, round_binary64 q = Finite r /\ 0 <= r.
Proof.
  intros Hq. unfold round_binary64; cbv zeta.
  destruct (Qeq_bool q 0); [right; exists 0; split; [reflexivity | apply Qle_refl] |].
  rewrite (Qltb_nonneg q Hq).
  set (e := Z.max (ilog2 (Qabs q) - 52) (-1074)).
  destruct (Qle_bool (pow2 1024) (inject_Z (py_round (Qabs q / pow2 e)) * pow2 e));
    [now left | right].
  eexists. split; [reflexivity |]. rewrite Qred_correct.
  apply Qmult_le_0_compat.
  - change 0 with (inject_Z 0). rewrite <- Zle_Qle. apply py_round_nonneg.
    apply Qle_shift_div_l; [apply pow2_pos |].
    rewrite Qmult_0_l. apply Qabs_nonneg.
  - apply Qlt_le_weak, pow2_pos.
Qed.

(** Half of an absolute value is a number that is not negative, an
    infinity, or a NaN; nothing is raised. *)
Lemma double_half_abs (s : double) :
  exists a : double,
    double_div (double_abs s) (Finite 2) = Ok a
    /\ (a = NaN \/ a = Infinity false \/ exists q : Q, a = Finite q /\ 0 <= q).
Proof.
  unfold double_div. change (double_is_zero (Finite 2)) with false. cbv iota.
  eexists. split; [reflexivity |].
  destruct s as [q | sg |]; cbn [double_abs].
  - destruct (round_binary64_nonneg (Qred (Qabs q) / 2)) as [E | (r & E & Hr)].
    + apply Qle_shift_div_l; [reflexivity |].
      rewrite Qmult_0_l, Qred_correct. apply Qabs_nonneg.
    + right. left. exact E.
    + right. right. now exists r.
  - right. left. reflexivity.
  - left. reflexivity.
Qed.

End Area.

(** C8, as the code has it.  For every polygon, [polygon_area] returns the
    absolute value of the shoelace sum divided by 2, the sum being added up
    edge by edge in double precision, the closing edge last.  The result is
    never negative: it is a number that is not negative, or the positive
    infinity, or a NaN when the sum overflows.  Nothing is claimed about when
    it is zero. *)
Theorem polygon_area_shoelace_abs :
  forall poly : list (double * double),
    exists a : double,
      polygon_area poly = Ok a
      /\ double_div (double_abs (spec_shoelace_sum poly)) (Finite 2) = Ok a
      /\ double_ltb a (Finite 0) = false
      /\ (a = NaN \/ a = Infinity false
          \/ exists q : Q, a = Finite q /\ (0 <= q)%Q).
Proof.
  intros poly.
  destruct (double_half_abs (spec_shoelace_sum poly)) as (a & Ea & Ha).
  exists a. split; [rewrite polygon_area_fold; exact Ea |].
  split; [exact Ea |]. split; [| exact Ha].
  destruct Ha as [-> | [-> | (q & -> & Hq)]]; try reflexivity.
  cbn [double_ltb]. now apply Qltb_nonneg.
Qed.

(** C8 as stated fails: a zero area does not make the points collinear.
    The self-crossing quadrilateral [(0,0), (1,1), (1,0), (0,1)] has area 0,
    its two halves cancelling.  Two triangles, polygons that do not cross
    themselves, have area 0.0 as well: the one with corners
    [(10^8, 10^8), (10^8 + 1, 10^8), (10^8, 10^8 + 1)], whose products are
    rounded to multiples of 2, and the one with corners
    [(0,0), (2^-600,0), (0,2^-600)], whose products underflow.  None of the
    three has its points on one line. *)
Lemma polygon_area_bowtie :
  polygon_area bowtie = Ok (Finite 0)
  /\ ~ collinear (exact_points bowtie)
  /\ polygon_area far_triangle = Ok (Finite 0)
  /\ ~ collinear (exact_points far_triangle)
  /\ polygon_area tiny_triangle = Ok (Finite 0)
  /\ ~ collinear (exact_points tiny_triangle).
Proof.
  split; [vm_compute; reflexivity |]. split; [| split; [| split; [| split]]].
  - intros (a & b & c & Hnz & Hline). apply Hnz.
    change (exact_points bowtie) with [(0, 0); (1, 1); (1, 0); (0, 1)]%Q in Hline.
    inversion_clear Hline as [| ? ? H0 Hl1].
    inversion_clear Hl1 as [| ? ? H1 Hl2].
    inversion_clear Hl2 as [| ? ? H2 Hl3].
    inversion_clear Hl3 as [| ? ? H3 _].
    simpl in *. split; lra.
  - vm_compute. reflexivity.
  - intros (a & b & c & Hnz & Hline). apply Hnz.
    change (exact_points far_triangle)
      with [(100000000, 100000000); (100000001, 100000000);
            (100000000, 100000001)]%Q in Hline.
    inversion_clear Hline as [| ? ? H0 Hl1].
    inversion_clear Hl1 as [| ? ? H1 Hl2].
    inversion_clear Hl2 as [| ? ? H2 _].
    simpl in *. split; lra.
  - vm_compute. reflexivity.
  - intros (a & b & c & Hnz & Hline). apply Hnz.
    assert (E : exact_points tiny_triangle
                = [(0, 0); (pow2 (-600), 0); (0, pow2 (-600))]%Q)
      by (vm_compute; reflexivity).
    rewrite E in Hline. clear E.
    pose proof (pow2_pos (-600)) as Hp.
    inversion_clear Hline as [| ? ? H0 Hl1].
    inversion_clear Hl1 as [| ? ? H1 Hl2].
    inversion_clear Hl2 as [| ? ? H2 _].
    cbn [fst snd] in *.
    assert (Hc : (c == 0)%Q) by lra.
    rewrite Hc in H1, H2. rewrite Qmult_0_r, Qplus_0_r in H1.
    rewrite Qmult_0_r, Qplus_0_l in H2.
    apply Qmult_integral in H1. apply Qmult_integral in H2.
    split; [destruct H1 as [H1 | H1] | destruct H2 as [H2 | H2]];
      try assumption; lra.
Qed.

(** In the other direction rounding bites as well: three points on the line
    [y = 0.1] have an area that is not 0. *)
Example polygon_area_level_points :
  collinear (exact_points level_points)
  /\ polygon_area level_points = Ok (Finite (1 # 288230376151711744)).
Proof.
  split; [| vm_compute; reflexivity].
  exists 0%Q, 1%Q, (double_value (round_binary64 0.1)). split.
  - intros [_ B]. discriminate.
  - repeat constructor; cbn [fst snd]; ring.
Qed.

(* ================================================================== *)
(** * Running and reasoning about programs that draw *)

Section Draws.

Context {A B : Type}.

Lemma run_bind {G : RandomSource} (p : rand A) (f : A -> rand B) :
  forall s,
    run (bind p f) s
    = match run p s with
      | (Ok a, s') => run (f a) s'
      | (Raise e, s') => (Raise e, s')
      end.
Proof.
  induction p as [a | e | k IH | n k IH | k IH]; intros s; simpl.
  - reflexivity.
  - reflexivity.
  - destruct (gen_random s) as [r s']. apply IH.
  - destruct (gen_randbelow n s) as [i s']. apply IH.
  - destruct (gen_module s) as [r s']. apply IH.
Qed.

Lemma wp_bind (C : Z -> Z -> Prop) (p : rand A) (f : A -> rand B)
    (Q : result B -> Prop) :
  wp C p (fun r => match r with
                   | Ok a => wp C (f a) Q
                   | Raise e => Q (Raise e)
                   end) ->
  wp C (bind p f) Q.
Proof.
  induction p as [a | e | k IH | n k IH | k IH]; simpl; intros H.
  - exact H.
  - exact H.
  - intros r. apply IH, H.
  - intros i Hi. apply IH, H, Hi.
  - intros r. apply IH, H.
Qed.

(** A step whose value does not matter. *)
Lemma wp_bind_any (C : Z -> Z -> Prop) (p : rand A) (f : A -> rand B)
    (Q : result B -> Prop) :
  (forall a, wp C (f a) Q) -> (forall e, Q (Raise e)) ->
  wp C (bind p f) Q.
Proof.
  intros Hf He.
  induction p as [a | e | k IH | n k IH | k IH]; simpl.
  - apply Hf.
  - apply He.
  - intros r. apply IH.
  - intros i _. apply IH.
  - intros r. apply IH.
Qed.

End Draws.

Section DrawRules.

Context {A : Type}.

Lemma wp_mono (C : Z -> Z -> Prop) (p : rand A) (Q Q' : result A -> Prop) :
  (forall r, Q r -> Q' r) -> wp C p Q -> wp C p Q'.
Proof.
  intros HQ.
  induction p as [a | e | k IH | n k IH | k IH]; simpl; intros H.
  - apply HQ, H.
  - apply HQ, H.
  - intros r. apply IH, H.
  - intros i Hi. apply IH, H, Hi.
  - intros r. apply IH, H.
Qed.

(** The rule is sound for every generator whose [_randbelow] keeps to
    the contract [C]. *)
Lemma wp_sound {G : RandomSource} (C : Z -> Z -> Prop) :
  (forall n s, C n (fst (gen_randbelow n s))) ->
  forall (p : rand A) (Q : result A -> Prop) (s : gen_state),
    wp C p Q -> Q (fst (run p s)).
Proof.
  intros HC p Q.
  induction p as [a | e | k IH | n k IH | k IH]; simpl; intros s H.
  - exact H.
  - exact H.
  - destruct (gen_random s) as [r s']. apply IH, H.
  - pose proof (HC n s) as Hi.
    destruct (gen_randbelow n s) as [i s']. apply IH, H, Hi.
  - destruct (gen_module s) as [r s']. apply IH, H.
Qed.

(** Two generators with the same stream run alike a program that draws
    from its own generator object only. *)
Lemma run_same_stream (G1 G2 : RandomSource)
    (R : @gen_state G1 -> @gen_state G2 -> Prop) :
  same_stream G1 G2 R ->
  forall p : rand A,
    seeded_only p ->
    forall s1 s2,
      R s1 s2 ->
      fst (@run G1 A p s1) = fst (@run G2 A p s2)
      /\ R (snd (@run G1 A p s1)) (snd (@run G2 A p s2)).
Proof.
  intros [Hseed Hrandom Hbelow] p.
  induction p as [a | e | k IH | n k IH | k IH]; simpl; intros Hp s1 s2 HR.
  - now split.
  - now split.
  - destruct (Hrandom s1 s2 HR) as [Hv Hs].
    destruct (@gen_random G1 s1) as [r1 s1'].
    destruct (@gen_random G2 s2) as [r2 s2']. simpl in Hv, Hs. subst r2.
    now apply IH.
  - destruct (Hbelow n s1 s2 HR) as [Hv Hs].
    destruct (@gen_randbelow G1 n s1) as [i1 s1'].
    destruct (@gen_randbelow G2 n s2) as [i2 s2']. simpl in Hv, Hs. subst i2.
    now apply IH.
  - contradiction.
Qed.

End DrawRules.

Section Loops.

Context {A St : Type}.

(** The loop rule: [I done s] holds of the state [s] reached after the
    elements [done] have been handled. *)
Lemma wp_for_each (C : Z -> Z -> Prop) (I : list A -> St -> Prop)
    (l : list A) (body : St -> A -> rand St) (Q : result St -> Prop) :
  (forall done x rest s,
      l = done ++ x :: rest -> I done s ->
      wp C (body s x) (fun r => match r with
                                | Ok s' => I (done ++ [x]) s'
                                | Raise e => Q (Raise e)
                                end)) ->
  (forall s, I l s -> Q (Ok s)) ->
  forall s0, I [] s0 -> wp C (for_each l body s0) Q.
Proof.
  intros Hbody Hend.
  assert (Hgen : forall rest done s,
             l = done ++ rest -> I done s -> wp C (for_each rest body s) Q).
  { induction rest as [| x rest IH]; intros done s Hl HI; simpl.
    - rewrite app_nil_r in Hl. subst done. now apply Hend.
    - apply wp_bind. eapply wp_mono; [| eapply Hbody; eauto].
      intros [s' |e] Hr; [| exact Hr].
      apply (IH (done ++ [x])); [| exact Hr].
      now rewrite <- app_assoc. }
  intros s0 H0. now apply (Hgen l []).
Qed.

End Loops.

(* ================================================================== *)
(** * The stable sort *)

Section Sort.

Context {A : Type} (key : A -> Z).

Lemma insert_by_filter (k : Z) (x : A) (l : list A) :
  filter (fun y => key y =? k) (insert_by key x l)
  = filter (fun y => key y =? k) (x :: l).
Proof.
  induction l as [| y l IH]; [reflexivity |].
  cbn [insert_by]. destruct (Z.leb_spec (key x) (key y)) as [Hle | Hgt].
  - reflexivity.
  - cbn [filter] in *. rewrite IH.
    destruct (Z.eqb_spec (key x) k) as [Ex | Nx];
      destruct (Z.eqb_spec (key y) k) as [Ey | Ny]; try reflexivity.
    lia.
Qed.

(** Elements with equal keys keep their order. *)
Lemma list_sort_stable (k : Z) (l : list A) :
  filter (fun y => key y =? k) (list_sort key l)
  = filter (fun y => key y =? k) l.
Proof.
  induction l as [| x l IH]; [reflexivity |].
  cbn [list_sort fold_right]. fold (list_sort key l).
  rewrite insert_by_filter. cbn [filter]. now rewrite IH.
Qed.

Lemma insert_by_perm (x : A) (l : list A) :
  Permutation (insert_by key x l) (x :: l).
Proof.
  induction l as [| y l IH]; [reflexivity |].
  cbn [insert_by]. destruct (key x <=? key y); [reflexivity |].
  rewrite IH. apply perm_swap.
Qed.

Lemma list_sort_perm (l : list A) : Permutation (list_sort key l) l.
Proof.
  induction l as [| x l IH]; [reflexivity |].
  cbn [list_sort fold_right]. fold (list_sort key l).
  rewrite insert_by_perm. now constructor.
Qed.

Lemma insert_by_sorted (x : A) (l : list A) :
  StronglySorted (key_le key) l ->
  StronglySorted (key_le key) (insert_by key x l).
Proof.
  induction l as [| y l IH]; intros Hs.
  - repeat constructor.
  - cbn [insert_by]. inversion_clear Hs as [| ? ? Hl Hy].
    destruct (Z.leb_spec (key x) (key y)) as [Hle | Hgt].
    + constructor; [now constructor |].
      constructor; [exact Hle |].
      eapply Forall_impl; [| exact Hy]. unfold key_le. intros; lia.
    + constructor; [now apply IH |].
      rewrite (insert_by_perm x l). constructor; [| exact Hy].
      unfold key_le. lia.
Qed.

Lemma list_sort_sorted (l : list A) :
  StronglySorted (key_le key) (list_sort key l).
Proof.
  induction l as [| x l IH]; [constructor |].
  cbn [list_sort fold_right]. now apply insert_by_sorted.
Qed.

(** A list already in order is left as it is. *)
Lemma list_sort_id (l : list A) :
  StronglySorted (key_le key) l -> list_sort key l = l.
Proof.
  induction l as [| x l IH]; intros Hs; [reflexivity |].
  inversion_clear Hs as [| ? ? Hl Hx].
  cbn [list_sort fold_right]. fold (list_sort key l). rewrite (IH Hl).
  destruct l as [| y l]; [reflexivity |].
  cbn [insert_by]. inversion_clear Hx as [| ? ? Hxy _].
  unfold key_le in Hxy. destruct (Z.leb_spec (key x) (key y)); [reflexivity | lia].
Qed.

Lemma sorted_nth (l : list A) :
  StronglySorted (key_le key) l ->
  forall i j a b,
    (i < j)%nat -> nth_error l i = Some a -> nth_error l j = Some b ->
    key a <= key b.
Proof.
  induction 1 as [| x l Hl IH Hx]; intros i j a b Hij Hi Hj.
  - destruct i; discriminate.
  - destruct j as [| j]; [lia |]. cbn [nth_error] in Hj.
    destruct i as [| i]; cbn [nth_error] in Hi.
    + inversion Hi; subst a. rewrite Forall_forall in Hx.
      apply Hx. eapply nth_error_In; eauto.
    + apply (IH i j); [lia | assumption | assumption].
Qed.

(** In a sorted list an element with a smaller key comes first. *)
Lemma sorted_before (l : list A) :
  StronglySorted (key_le key) l ->
  forall i j a b,
    nth_error l i = Some a -> nth_error l j = Some b ->
    key a < key b -> (i < j)%nat.
Proof.
  intros Hs i j a b Hi Hj Hlt.
  destruct (Nat.lt_trichotomy i j) as [Hij | [Hij | Hij]]; [exact Hij | |].
  - subst j. rewrite Hi in Hj. inversion Hj; subst b. lia.
  - pose proof (sorted_nth l Hs j i b a Hij Hj Hi). lia.
Qed.

End Sort.

(* ================================================================== *)
(** * Roles and draw order of the generated shapes *)

Ltac wp_skip :=
  apply wp_bind_any; [intros ? | intros ?; simpl; exact I].

Tactic Notation "wp_skip" "as" simple_intropattern(x) :=
  apply wp_bind_any; [intros x | intros ?; simpl; exact I].

Section Roles.

Context {M : Libm}.

Lemma place_macro_role (px_per_mm : Q) (W H : Z)
    (shapes : list Shape) (size : Z * Z) :
  Forall is_macro shapes ->
  wp any_draw (place_macro px_per_mm W H shapes size)
     (if_returns (Forall is_macro)).
Proof.
  intros Hs. unfold place_macro. destruct size as [a_mm b_mm].
  assert (Hend : forall (p : list Point) (ck : string),
             ck = "C1"%string \/ ck = "C3"%string ->
             Forall is_macro
               (shapes ++ [{| poly := p; color_key := ck; z := 10 |}])).
  { intros p ck Hck. apply Forall_app. split; [exact Hs |].
    constructor; [| constructor]. split; [reflexivity | exact Hck]. }
  wp_skip as poly0. wp_skip as ang. wp_skip as sx. wp_skip as sy.
  wp_skip as cx. wp_skip as cy. apply wp_bind.
  destruct (String.eqb _ "big" || String.eqb _ "huge")%bool; simpl; intros r.
  - apply Hend. destruct (Qltb r 0.55); auto.
  - apply Hend. destruct (Qltb r 0.70); auto.
Qed.

Lemma place_micro_role (px_per_mm : Q) (shapes : list Shape) (i : Z) :
  forall macros micros,
    shapes = macros ++ micros ->
    Forall is_micro micros ->
    wp any_draw (place_micro px_per_mm shapes i)
       (if_returns (fun shapes' =>
          exists s, shapes' = macros ++ (micros ++ [s]) /\ is_micro s)).
Proof.
  intros macros micros Hs Hm. unfold place_micro.
  wp_skip as micro_mm. wp_skip as micro0. wp_skip as ang. wp_skip as idx.
  wp_skip as tgt. wp_skip as k. wp_skip as [x1 y1]. wp_skip as k1.
  wp_skip as [x2 y2]. wp_skip as t. wp_skip as nx. wp_skip as ny.
  wp_skip as u. wp_skip as r. wp_skip as [px2 py2].
  simpl. intros r'. eexists. split.
  - rewrite Hs, app_assoc. reflexivity.
  - split; [reflexivity |]. simpl. destruct (Qltb r' 0.68); auto.
Qed.

(** In generation order the shapes are macro shapes followed by micro
    shapes. *)
Lemma generate_shapes_roles (px_per_mm : Q) (W H macro_count micro_count : Z) :
  wp any_draw (generate_shapes px_per_mm W H macro_count micro_count)
     (if_returns (fun shapes =>
        exists macros micros,
          shapes = macros ++ micros
          /\ Forall is_macro macros /\ Forall is_micro micros)).
Proof.
  unfold generate_shapes. wp_skip. apply wp_bind.
  apply (wp_for_each any_draw (fun _ shapes => Forall is_macro shapes)).
  - intros done x rest s _ Hs.
    eapply wp_mono; [| apply place_macro_role; exact Hs].
    intros [s' | e] Hr; exact Hr.
  - intros macros Hmac.
    apply (wp_for_each any_draw
             (fun _ shapes => exists micros,
                  shapes = macros ++ micros /\ Forall is_micro micros)).
    + intros done x rest s _ (micros & Hs & Hmic).
      eapply wp_mono; [| eapply place_micro_role; eauto].
      intros [s' | e] Hr; [| exact I]. simpl in Hr.
      destruct Hr as (sh & -> & Hsh). exists (micros ++ [sh]).
      split; [reflexivity |]. apply Forall_app. split; [exact Hmic |].
      constructor; [exact Hsh | constructor].
    + intros s (micros & Hs & Hmic). simpl. now exists macros, micros.
    + exists []. split; [now rewrite app_nil_r | constructor].
  - constructor.
Qed.

End Roles.

(* ================================================================== *)
(** * Built-ins that do not raise *)

Section Builtins.

Lemma py_range_length (lo hi : Z) :
  List.length (py_range lo hi) = Z.to_nat (hi - lo).
Proof. unfold py_range. now rewrite length_map, length_seq. Qed.

Lemma py_range_In (lo hi x : Z) : In x (py_range lo hi) <-> lo <= x < hi.
Proof.
  unfold py_range. rewrite in_map_iff. split.
  - intros (i & <- & Hi). apply in_seq in Hi. lia.
  - intros Hx. exists (Z.to_nat (x - lo)). split; [lia |].
    apply in_seq. lia.
Qed.

Lemma list_get_ok {A : Type} (l : list A) (i : Z) :
  0 <= i < Z.of_nat (List.length l) ->
  exists a, list_get l i = Ok a /\ In a l.
Proof.
  intros Hi.
  destruct (nth_error l (Z.to_nat i)) as [a |] eqn:E.
  - exists a. split.
    + rewrite <- (Z2Nat.id i) by lia. now apply list_get_nth_error.
    + eapply nth_error_In; eauto.
  - apply nth_error_None in E. lia.
Qed.

Lemma list_set_ok {A : Type} (l : list A) (i : Z) (v : A) :
  0 <= i < Z.of_nat (List.length l) ->
  exists l', list_set l i v = Ok l' /\ List.length l' = List.length l.
Proof.
  intros Hi. unfold list_set; cbv zeta.
  assert (E1 : (i <? 0) = false) by (apply Z.ltb_ge; lia).
  rewrite E1. cbv iota.
  assert (E2 : (Z.of_nat (List.length l) <=? i) = false) by (apply Z.leb_gt; lia).
  rewrite E1, E2. cbn [orb]. eexists. split; [reflexivity |].
  rewrite length_app, length_firstn. cbn [List.length].
  rewrite length_skipn. lia.
Qed.

Lemma py_mod_ok (a b : Z) : b <> 0 -> py_mod a b = Ok (a mod b).
Proof.
  intros Hb. unfold py_mod. now destruct (Z.eqb_spec b 0).
Qed.

Lemma py_div_ok (a b : Q) : ~ (b == 0)%Q -> py_div a b = Ok (a / b)%Q.
Proof.
  intros Hb. unfold py_div.
  destruct (Qeq_bool b 0) eqn:E; [| reflexivity].
  apply Qeq_bool_eq in E. contradiction.
Qed.

Lemma inject_Z_nonzero (n : Z) : n <> 0 -> ~ (inject_Z n == 0)%Q.
Proof.
  intros Hn H. unfold Qeq in H. simpl in H. lia.
Qed.

End Builtins.

Section PrimitiveRules.

Context {A : Type}.

Lemma wp_random (C : Z -> Z -> Prop) (f : Q -> rand A) (Q : result A -> Prop) :
  (forall r, wp C (f r) Q) -> wp C (bind rng_random f) Q.
Proof. intros H. exact H. Qed.

Lemma wp_uniform (C : Z -> Z -> Prop) (a b : Q) (f : Q -> rand A)
    (Q : result A -> Prop) :
  (forall v, wp C (f v) Q) -> wp C (bind (rng_uniform a b) f) Q.
Proof. intros H r. apply H. Qed.

Lemma wp_randbelow (n : Z) (f : Z -> rand A) (Q : result A -> Prop) :
  0 < n ->
  (forall i, 0 <= i < n -> wp in_range_draw (f i) Q) ->
  wp in_range_draw (bind (rng_randbelow n) f) Q.
Proof. intros Hn H i Hi. apply H. now apply Hi. Qed.

Lemma wp_randrange (start stop : Z) (f : Z -> rand A) (Q : result A -> Prop) :
  start < stop ->
  (forall v, start <= v < stop -> wp in_range_draw (f v) Q) ->
  wp in_range_draw (bind (rng_randrange start stop) f) Q.
Proof.
  intros Hlt H. unfold rng_randrange; cbv zeta.
  destruct (Z.ltb_spec 0 (stop - start)) as [Hw | Hw]; [| lia].
  intros i Hi. apply H. specialize (Hi Hw). lia.
Qed.

Lemma wp_randrange_empty (C : Z -> Z -> Prop) (start stop : Z)
    (f : Z -> rand A) (Q : result A -> Prop) :
  stop <= start ->
  Q (Raise ValueError) ->
  wp C (bind (rng_randrange start stop) f) Q.
Proof.
  intros Hle H. unfold rng_randrange; cbv zeta.
  destruct (Z.ltb_spec 0 (stop - start)) as [Hw | Hw]; [lia | exact H].
Qed.

Lemma wp_randint (lo hi : Z) (f : Z -> rand A) (Q : result A -> Prop) :
  lo <= hi ->
  (forall v, lo <= v <= hi -> wp in_range_draw (f v) Q) ->
  wp in_range_draw (bind (rng_randint lo hi) f) Q.
Proof.
  intros Hle H. unfold rng_randint. apply wp_randrange; [lia |].
  intros v Hv. apply H. lia.
Qed.

Lemma wp_lift_ok {B : Type} (C : Z -> Z -> Prop) (r : result B) (b : B)
    (f : B -> rand A) (Q : result A -> Prop) :
  r = Ok b -> wp C (f b) Q -> wp C (bind (lift r) f) Q.
Proof. intros -> H. exact H. Qed.

End PrimitiveRules.

(* ================================================================== *)
(** * The generator returns *)

Section Returns.

Context {M : Libm} (Hhypot : hypot_nonneg M).

Lemma edge_length_nonzero (vx vy : Q) : ~ (hypot vx vy + 1e-9 == 0)%Q.
Proof.
  pose proof (Hhypot vx vy) as H. intros E.
  change 1e-9%Q with (1 # 1000000000)%Q in E.
  clear Hhypot. lra.
Qed.

Lemma rotate_points_map (pts : list Point) (angle : Q) :
  rotate_points pts angle
  = map (fun '(x, y) =>
           (x * cos angle - y * sin angle, x * sin angle + y * cos angle)%Q)
        pts.
Proof.
  unfold rotate_points; cbv zeta.
  assert (H : forall acc,
             fold_left
               (fun out '(x, y) =>
                  out ++ [(x * cos angle - y * sin angle,
                           x * sin angle + y * cos angle)%Q]) pts acc
             = acc ++ map (fun '(x, y) =>
                             (x * cos angle - y * sin angle,
                              x * sin angle + y * cos angle)%Q) pts).
  { induction pts as [| [x y] pts IH]; intros acc; simpl.
    - now rewrite app_nil_r.
    - rewrite IH, <- app_assoc. reflexivity. }
  apply (H []).
Qed.

Lemma random_blob_returns (r_min r_max : Q) (n_base jag_subdiv : Z * Z)
    (jag_amp : Q * Q) :
  1 <= fst n_base <= snd n_base ->
  fst jag_subdiv <= snd jag_subdiv ->
  wp in_range_draw (random_blob r_min r_max n_base jag_subdiv jag_amp)
     (returns (fun dent => dent <> [])).
Proof.
  intros Hn Hk. unfold random_blob.
  apply wp_randint; [lia |]. intros n Hn'.
  apply wp_uniform. intros base_r.
  apply wp_bind.
  apply (wp_for_each in_range_draw
           (fun done (pts : list Point) => List.length pts = List.length done)).
  - intros done i rest pts _ Hlen.
    eapply wp_lift_ok; [apply py_div_ok, inject_Z_nonzero; lia |].
    apply wp_uniform. intros u. apply wp_uniform. intros v.
    cbn [wp]. unfold Point in *. rewrite !length_app. cbn [List.length]. lia.
  - intros pts Hpts. rewrite py_range_length, Z.sub_0_r in Hpts.
    apply (wp_for_each in_range_draw
             (fun done (dent : list Point) => done <> [] -> dent <> [])).
    + intros done i rest dent Hl _.
      assert (Hi : 0 <= i < n).
      { apply (py_range_In 0 n i). rewrite Hl. apply in_elt. }
      destruct (list_get_ok pts i) as ([x1 y1] & E1 & _); [lia |].
      eapply wp_lift_ok; [exact E1 |].
      eapply wp_lift_ok; [apply py_mod_ok; lia |].
      destruct (list_get_ok pts ((i + 1) mod n)) as ([x2 y2] & E2 & _).
      { pose proof (Z.mod_pos_bound (i + 1) n). lia. }
      eapply wp_lift_ok; [exact E2 |].
      apply wp_randint; [exact Hk |]. intros k Hk'.
      apply (wp_for_each in_range_draw
               (fun _ (dent' : list Point) => dent' <> [])).
      * intros done' j rest' dent' Hl' Hne.
        assert (Hj : 1 <= j < k + 1).
        { apply (py_range_In 1 (k + 1) j). rewrite Hl'. apply in_elt. }
        eapply wp_lift_ok; [apply py_div_ok, inject_Z_nonzero; lia |].
        eapply wp_lift_ok; [apply py_div_ok, edge_length_nonzero |].
        eapply wp_lift_ok; [apply py_div_ok, edge_length_nonzero |].
        apply wp_uniform. intros u. apply wp_random. intros r.
        cbn [wp]. intros E. now apply app_eq_nil in E.
      * intros dent' Hne _. exact Hne.
      * intros E. now apply app_eq_nil in E.
    + intros dent Hdent. cbn [returns]. apply Hdent.
      intros E. apply (f_equal (@List.length Z)) in E.
      rewrite py_range_length in E. simpl in E. lia.
    + intros E. now contradiction E.
  - reflexivity.
Qed.

Lemma placed_poly_nonempty (poly0 : list Point) (ang sx sy cx cy : Q) :
  poly0 <> [] ->
  translate_points
    (map (fun '(x, y) => (x * sx, y * sy)%Q) (rotate_points poly0 ang)) cx cy
  <> [].
Proof.
  intros Hne. rewrite rotate_points_map. unfold translate_points.
  destruct poly0 as [| [x y] poly0]; [contradiction | discriminate].
Qed.

Lemma place_macro_returns (px_per_mm : Q) (W H : Z)
    (shapes : list Shape) (size : Z * Z) :
  wp in_range_draw (place_macro px_per_mm W H shapes size)
     (returns (fun shapes' =>
        exists s, shapes' = shapes ++ [s] /\ is_macro s /\ poly s <> [])).
Proof.
  unfold place_macro. destruct size as [a_mm b_mm].
  apply wp_bind.
  eapply wp_mono; [| apply random_blob_returns; simpl; lia].
  intros [poly0 | e] Hne; [| exact Hne]. cbn [returns] in Hne.
  apply wp_uniform. intros ang. apply wp_uniform. intros sx.
  apply wp_uniform. intros sy. apply wp_uniform. intros cx.
  apply wp_uniform. intros cy. apply wp_bind.
  destruct (String.eqb _ "big" || String.eqb _ "huge")%bool; simpl; intros r;
    (eexists; split; [reflexivity |]; split;
     [split; [reflexivity |] | now apply placed_poly_nonempty]); simpl.
  - destruct (Qltb r 0.55); auto.
  - destruct (Qltb r 0.70); auto.
Qed.

Lemma place_micro_returns (px_per_mm : Q) (shapes : list Shape) (i : Z) :
  shapes <> [] ->
  Forall (fun s => poly s <> []) shapes ->
  wp in_range_draw (place_micro px_per_mm shapes i)
     (returns (fun shapes' =>
        exists s, shapes' = shapes ++ [s] /\ is_micro s /\ poly s <> [])).
Proof.
  intros Hshapes Hpolys. unfold place_micro.
  apply wp_uniform. intros micro_mm. apply wp_bind.
  eapply wp_mono; [| apply random_blob_returns; simpl; lia].
  intros [micro0 | e] Hne; [| exact Hne]. cbn [returns] in Hne.
  apply wp_uniform. intros ang.
  assert (Hlen : 0 < Z.of_nat (List.length shapes)).
  { destruct shapes; [contradiction | simpl; lia]. }
  apply wp_randrange; [exact Hlen |]. intros idx Hidx.
  destruct (list_get_ok shapes idx) as (tgt & Etgt & Hin); [lia |].
  eapply wp_lift_ok; [exact Etgt |].
  rewrite Forall_forall in Hpolys. specialize (Hpolys tgt Hin).
  assert (Hplen : 0 < Z.of_nat (List.length (poly tgt))).
  { destruct (poly tgt); [contradiction | simpl; lia]. }
  apply wp_randrange; [exact Hplen |]. intros k Hk.
  destruct (list_get_ok (poly tgt) k) as ([x1 y1] & E1 & _); [lia |].
  eapply wp_lift_ok; [exact E1 |].
  eapply wp_lift_ok; [apply py_mod_ok; lia |].
  destruct (list_get_ok (poly tgt)
              ((k + 1) mod Z.of_nat (List.length (poly tgt))))
    as ([x2 y2] & E2 & _).
  { pose proof (Z.mod_pos_bound (k + 1) (Z.of_nat (List.length (poly tgt)))).
    lia. }
  eapply wp_lift_ok; [exact E2 |].
  apply wp_uniform. intros t.
  eapply wp_lift_ok; [apply py_div_ok, edge_length_nonzero |].
  eapply wp_lift_ok; [apply py_div_ok, edge_length_nonzero |].
  apply wp_uniform. intros u. apply wp_random. intros r. apply wp_bind.
  assert (Hend : forall px2 py2 : Q,
             wp in_range_draw
                (bind rng_random (fun r0 =>
                   Ret (shapes ++
                        [{| poly := translate_points (rotate_points micro0 ang) px2 py2;
                            color_key := if Qltb r0 0.68 then "C4"%string
                                         else "C2"%string;
                            z := 30 |}])))
                (returns (fun shapes' =>
                   exists s, shapes' = shapes ++ [s]
                             /\ is_micro s /\ poly s <> []))).
  { intros px2 py2 r0. cbn [wp returns]. eexists. split; [reflexivity |].
    split.
    - split; [reflexivity |]. simpl. destruct (Qltb r0 0.68); auto.
    - simpl. rewrite rotate_points_map. unfold translate_points.
      destruct micro0 as [| [x y] micro0]; [contradiction | discriminate]. }
  destruct (Qltb r 0.20).
  - apply wp_uniform. intros v. apply Hend.
  - apply Hend.
Qed.

Lemma rng_shuffle_returns {A : Type} (x : list A) :
  wp in_range_draw (rng_shuffle x)
     (returns (fun x' => List.length x' = List.length x)).
Proof.
  unfold rng_shuffle.
  apply (wp_for_each in_range_draw
           (fun _ (y : list A) => List.length y = List.length x)).
  - intros done i rest y Hl Hy.
    assert (Hi : 1 <= i < Z.of_nat (List.length x)).
    { apply (py_range_In 1 (Z.of_nat (List.length x)) i).
      apply in_rev. rewrite Hl. apply in_elt. }
    apply wp_randbelow; [lia |]. intros j Hj.
    destruct (list_get_ok y j) as (xj & Ej & _); [lia |].
    eapply wp_lift_ok; [exact Ej |].
    destruct (list_get_ok y i) as (xi & Ei & _); [lia |].
    eapply wp_lift_ok; [exact Ei |].
    destruct (list_set_ok y i xj) as (y1 & E1 & L1); [lia |].
    eapply wp_lift_ok; [exact E1 |].
    destruct (list_set_ok y1 j xi) as (y2 & E2 & L2); [lia |].
    rewrite E2. cbn [lift wp]. lia.
  - intros y Hy. exact Hy.
  - reflexivity.
Qed.

(** With at least one macro shape, or with no micro shape to place, the
    generation returns [macro_count] macro shapes followed by the micro
    shapes asked for. *)
Lemma generate_shapes_returns (px_per_mm : Q) (W H macro_count micro_count : Z) :
  0 <= macro_count ->
  1 <= macro_count \/ micro_count <= 0 ->
  wp in_range_draw (generate_shapes px_per_mm W H macro_count micro_count)
     (returns (fun shapes =>
        exists macros micros,
          shapes = macros ++ micros
          /\ Z.of_nat (List.length macros) = macro_count
          /\ Z.of_nat (List.length micros) = Z.max 0 micro_count
          /\ Forall is_macro macros /\ Forall is_micro micros)).
Proof.
  intros Hmc Hcase. unfold generate_shapes. apply wp_bind.
  eapply wp_mono; [| apply rng_shuffle_returns].
  intros [sizes | e] Hsizes; [| exact Hsizes]. cbn [returns] in Hsizes.
  apply wp_bind.
  apply (wp_for_each in_range_draw
           (fun done shapes =>
              List.length shapes = List.length done
              /\ Forall is_macro shapes
              /\ Forall (fun s => poly s <> []) shapes)).
  - intros done x rest shapes _ (Hlen & Hmac & Hpoly).
    eapply wp_mono; [| apply place_macro_returns].
    intros [shapes' | e] Hr; [| exact Hr]. cbn [returns] in Hr.
    destruct Hr as (sh & -> & Hsh & Hne).
    split; [now rewrite !length_app, Hlen |].
    split; apply Forall_app; split; try assumption;
      (constructor; [assumption | constructor]).
  - intros macros (Hlen & Hmac & Hpoly).
    assert (Hcount : Z.of_nat (List.length macros) = macro_count).
    { rewrite Hlen, Hsizes. now apply macro_sizes_mm_length. }
    apply (wp_for_each in_range_draw
             (fun done shapes =>
                exists micros,
                  shapes = macros ++ micros
                  /\ List.length micros = List.length done
                  /\ Forall is_micro micros
                  /\ Forall (fun s => poly s <> []) shapes)).
    + intros done x rest shapes Hl (micros & -> & Hlen' & Hmic & Hpoly').
      assert (Hx : 0 <= x < micro_count).
      { apply (py_range_In 0 micro_count x). rewrite Hl. apply in_elt. }
      eapply wp_mono; [| apply place_micro_returns; [| exact Hpoly']].
      * intros [shapes' | e] Hr; [| exact Hr]. cbn [returns] in Hr.
        destruct Hr as (sh & -> & Hsh & Hne).
        exists (micros ++ [sh]). split; [now rewrite app_assoc |].
        split; [now rewrite !length_app, Hlen' |].
        split; apply Forall_app; split; try assumption;
          (constructor; [assumption | constructor]).
      * destruct macros; [simpl in Hcount; lia | discriminate].
    + intros shapes (micros & -> & Hlen' & Hmic & _). cbn [returns].
      exists macros, micros. split; [reflexivity |].
      split; [exact Hcount |]. split; [| now split].
      rewrite Hlen', py_range_length. lia.
    + exists []. split; [now rewrite app_nil_r |].
      split; [reflexivity |]. split; [constructor | exact Hpoly].
  - split; [reflexivity |]. split; constructor.
Qed.

(** With no macro shape the first micro shape has no anchor to pick. *)
Lemma generate_shapes_no_anchor (px_per_mm : Q) (W H micro_count : Z) :
  1 <= micro_count ->
  wp in_range_draw (generate_shapes px_per_mm W H 0 micro_count)
     (fun r => r = Raise ValueError).
Proof.
  intros Hmi. unfold generate_shapes.
  change (macro_sizes_mm 0) with (@nil (Z * Z)).
  change (rng_shuffle (@nil (Z * Z))) with (Ret (@nil (Z * Z))).
  cbn [bind for_each].
  destruct (py_range 0 micro_count) as [| x rest] eqn:E.
  - apply (f_equal (@List.length Z)) in E. rewrite py_range_length in E.
    simpl in E. lia.
  - cbn [for_each]. apply wp_bind. unfold place_micro.
    apply wp_uniform. intros micro_mm. apply wp_bind.
    eapply wp_mono; [| apply random_blob_returns; simpl; lia].
    intros [micro0 | e] Hne; [| contradiction].
    apply wp_uniform. intros ang.
    apply wp_randrange_empty; [simpl; lia | reflexivity].
Qed.

End Returns.

(* ================================================================== *)
(** * The reference generator and math library keep the contracts *)

Lemma Lcg_in_range : randbelow_in_range Reference.Lcg.
Proof.
  intros n s Hn. simpl. apply Z.mod_pos_bound. exact Hn.
Qed.

Lemma Poly_hypot_nonneg : hypot_nonneg Reference.Poly.
Proof.
  intros x y. simpl.
  pose proof (Qabs_nonneg x). pose proof (Qabs_nonneg y). lra.
Qed.

Lemma Lcg_counting_same_stream :
  same_stream Reference.Lcg Reference.LcgCounting (fun s st => s = fst st).
Proof.
  split.
  - intros seed. reflexivity.
  - intros s1 [s2 c] E. simpl in E. subst s2. now split.
  - intros n s1 [s2 c] E. simpl in E. subst s2. now split.
Qed.

(* ================================================================== *)
(** * [generate_camo] *)

Section GenerateCamo.

Context {G : RandomSource} {M : Libm}.

Variables (seed tile_mm : Z) (px_per_mm : Q) (macro_count micro_count : Z).

(** [generate_camo] returns, with the tile size, the sorted list of what the
    loops produced. *)
Lemma generate_camo_sorted (W : Z) (shapes : list Shape) :
  generate_camo seed tile_mm px_per_mm macro_count micro_count = Ok (W, shapes)
  <-> tile_px tile_mm px_per_mm = Ok W
      /\ exists unsorted : list Shape,
           generate_camo_unsorted seed tile_mm px_per_mm macro_count micro_count
           = Ok unsorted
           /\ shapes = list_sort z unsorted.
Proof.
  unfold generate_camo, generate_camo_unsorted, generate_camo_draws; cbv zeta.
  destruct (tile_px tile_mm px_per_mm) as [W0 | e]; cbn [rbind].
  - rewrite run_bind.
    destruct (run _ (gen_seed seed)) as [[unsorted | e] s']; cbn [fst run].
    + split.
      * intros [= <- <-]. split; [reflexivity |]. now exists unsorted.
      * intros ([= <-] & u & [= <-] & ->). reflexivity.
    + split; [discriminate |]. intros (_ & u & Hu & _). discriminate.
  - split; [discriminate |]. intros (H & _). discriminate.
Qed.

(** It raises what the tile size or the loops raise. *)
Lemma generate_camo_raises (e : exn) :
  generate_camo seed tile_mm px_per_mm macro_count micro_count = Raise e
  <-> generate_camo_unsorted seed tile_mm px_per_mm macro_count micro_count
      = Raise e.
Proof.
  unfold generate_camo, generate_camo_unsorted, generate_camo_draws; cbv zeta.
  destruct (tile_px tile_mm px_per_mm) as [W0 | e0]; cbn [rbind];
    [| split; intros [= ->]; reflexivity].
  rewrite run_bind.
  destruct (run _ (gen_seed seed)) as [[unsorted | e1] s']; cbn [fst run].
  - split; discriminate.
  - split; intros [= ->]; reflexivity.
Qed.

Lemma generate_camo_unsorted_roles (shapes : list Shape) :
  generate_camo_unsorted seed tile_mm px_per_mm macro_count micro_count
  = Ok shapes ->
  exists macros micros,
    shapes = macros ++ micros
    /\ Forall is_macro macros /\ Forall is_micro micros.
Proof.
  unfold generate_camo_unsorted; cbv zeta.
  destruct (tile_px tile_mm px_per_mm) as [W | e]; cbn [rbind];
    [| discriminate].
  intros E.
  pose proof (wp_sound any_draw (fun _ _ => I) _ _ (gen_seed seed)
                (generate_shapes_roles px_per_mm W W macro_count micro_count))
    as H.
  rewrite E in H. exact H.
Qed.

Lemma generate_camo_returns (W : Z) :
  tile_px tile_mm px_per_mm = Ok W ->
  randbelow_in_range G -> hypot_nonneg M ->
  0 <= macro_count ->
  1 <= macro_count \/ micro_count <= 0 ->
  exists macros micros,
    generate_camo_unsorted seed tile_mm px_per_mm macro_count micro_count
    = Ok (macros ++ micros)
    /\ Z.of_nat (List.length macros) = macro_count
    /\ Z.of_nat (List.length micros) = Z.max 0 micro_count
    /\ Forall is_macro macros /\ Forall is_micro micros.
Proof.
  intros HW HG HM Hmc Hcase. unfold generate_camo_unsorted; cbv zeta.
  rewrite HW. cbn [rbind].
  pose proof (wp_sound in_range_draw HG _ _ (gen_seed seed)
                (generate_shapes_returns HM px_per_mm W W macro_count
                   micro_count Hmc Hcase)) as H.
  destruct (fst (run _ (gen_seed seed))) as [shapes | e]; [| contradiction].
  cbn [returns] in H. destruct H as (macros & micros & -> & H).
  now exists macros, micros.
Qed.

End GenerateCamo.

Lemma macro_micro_sorted (macros micros : list Shape) :
  Forall is_macro macros -> Forall is_micro micros ->
  StronglySorted (key_le z) (macros ++ micros).
Proof.
  intros Hmac Hmic.
  assert (Hs : StronglySorted (key_le z) micros).
  { induction Hmic as [| s micros [Hz _] Hmic IH]; constructor; [exact IH |].
    eapply Forall_impl; [| exact Hmic]. intros t [Ht _]. unfold key_le. lia. }
  induction Hmac as [| s macros [Hz _] Hmac IH]; [exact Hs |].
  cbn [app]. constructor; [exact IH |].
  apply Forall_app. split.
  - eapply Forall_impl; [| exact Hmac]. intros t [Ht _]. unfold key_le. lia.
  - eapply Forall_impl; [| exact Hmic]. intros t [Ht _]. unfold key_le. lia.
Qed.

(* ================================================================== *)
(** * Every draw is made on the seeded generator *)

Section Seeded.

Lemma seeded_only_bind {A B : Type} (p : rand A) (f : A -> rand B) :
  seeded_only p -> (forall a, seeded_only (f a)) -> seeded_only (bind p f).
Proof.
  intros Hp Hf.
  induction p as [a | e | k IH | n k IH | k IH]; simpl in *.
  - apply Hf.
  - exact I.
  - intros r. apply IH, Hp.
  - intros i. apply IH, Hp.
  - contradiction.
Qed.

Lemma seeded_only_lift {A : Type} (r : result A) : seeded_only (lift r).
Proof. destruct r; exact I. Qed.

Lemma seeded_only_for_each {A St : Type} (l : list A)
    (body : St -> A -> rand St) :
  (forall s x, seeded_only (body s x)) ->
  forall s, seeded_only (for_each l body s).
Proof.
  intros Hbody. induction l as [| x l IH]; intros s; simpl.
  - exact I.
  - apply seeded_only_bind; [apply Hbody | apply IH].
Qed.

Lemma seeded_only_random : seeded_only rng_random.
Proof. intros r. exact I. Qed.

Lemma seeded_only_randbelow (n : Z) : seeded_only (rng_randbelow n).
Proof. intros i. exact I. Qed.

Lemma seeded_only_uniform (a b : Q) : seeded_only (rng_uniform a b).
Proof. intros r. exact I. Qed.

Lemma seeded_only_randrange (start stop : Z) :
  seeded_only (rng_randrange start stop).
Proof.
  unfold rng_randrange; cbv zeta.
  destruct (0 <? stop - start); [intros i |]; exact I.
Qed.

Lemma seeded_only_randint (a b : Z) : seeded_only (rng_randint a b).
Proof. apply seeded_only_randrange. Qed.

End Seeded.

Ltac seeded_step :=
  first
    [ exact I
    | apply seeded_only_lift
    | apply seeded_only_random
    | apply seeded_only_randbelow
    | apply seeded_only_uniform
    | apply seeded_only_randrange
    | apply seeded_only_randint
    | apply seeded_only_for_each; intros
    | apply seeded_only_bind; [| intros]
    | match goal with
      | |- seeded_only (match ?x with _ => _ end) => destruct x
      end ].

Ltac seeded := repeat seeded_step.

Section SeededCamo.

Context {M : Libm}.

Lemma rng_shuffle_seeded {A : Type} (x : list A) : seeded_only (rng_shuffle x).
Proof. unfold rng_shuffle. seeded. Qed.

Lemma random_blob_seeded (r_min r_max : Q) (n_base jag_subdiv : Z * Z)
    (jag_amp : Q * Q) :
  seeded_only (random_blob r_min r_max n_base jag_subdiv jag_amp).
Proof. unfold random_blob. seeded. Qed.

Lemma place_macro_seeded (px_per_mm : Q) (W H : Z)
    (shapes : list Shape) (size : Z * Z) :
  seeded_only (place_macro px_per_mm W H shapes size).
Proof.
  unfold place_macro. destruct size as [a_mm b_mm].
  apply seeded_only_bind; [apply random_blob_seeded | intros]. seeded.
Qed.

Lemma place_micro_seeded (px_per_mm : Q) (shapes : list Shape) (i : Z) :
  seeded_only (place_micro px_per_mm shapes i).
Proof.
  unfold place_micro.
  apply seeded_only_bind; [apply seeded_only_uniform | intros].
  apply seeded_only_bind; [apply random_blob_seeded | intros]. seeded.
Qed.

Lemma generate_shapes_seeded (px_per_mm : Q) (W H macro_count micro_count : Z) :
  seeded_only (generate_shapes px_per_mm W H macro_count micro_count).
Proof.
  unfold generate_shapes.
  apply seeded_only_bind; [apply rng_shuffle_seeded | intros].
  apply seeded_only_bind.
  - apply seeded_only_for_each. intros. apply place_macro_seeded.
  - intros. apply seeded_only_for_each. intros. apply place_micro_seeded.
Qed.

Lemma generate_camo_draws_seeded (W : Z) (px_per_mm : Q)
    (macro_count micro_count : Z) :
  seeded_only (generate_camo_draws W px_per_mm macro_count micro_count).
Proof.
  unfold generate_camo_draws; cbv zeta.
  apply seeded_only_bind; [apply generate_shapes_seeded | intros; exact I].
Qed.

End SeededCamo.

(* ================================================================== *)
(** * The claims about [generate_camo] *)

(** Every generator delivers the same stream as itself. *)
Lemma same_stream_refl (G : RandomSource) : same_stream G G eq.
Proof.
  split.
  - reflexivity.
  - intros s1 s2 ->. now split.
  - intros n s1 s2 ->. now split.
Qed.

(** C1.  Determinism.  Two calls of [generate_camo] with the same seed and
    the same configuration return identical results: the same tile size and
    the same shape list, polygon for polygon, role for role, draw order for
    draw order, in the same order (or the same exception).  Each call finds
    generator objects of its own; the two agree on the stream that a
    [random.Random(seed)] object delivers and on nothing else, so the module's
    generator may answer differently in the two calls.  The results agree
    because every draw of [generate_camo] is made on the one object it seeded
    at its start. *)
Theorem generate_camo_deterministic :
  forall (G1 G2 : RandomSource)
         (R : @gen_state G1 -> @gen_state G2 -> Prop) (M : Libm),
    same_stream G1 G2 R ->
    forall (seed tile_mm : Z) (px_per_mm : Q) (macro_count micro_count : Z),
      @generate_camo G1 M seed tile_mm px_per_mm macro_count micro_count
      = @generate_camo G2 M seed tile_mm px_per_mm macro_count micro_count
      /\ forall W : Z,
           seeded_only (generate_camo_draws W px_per_mm macro_count micro_count).
Proof.
  intros G1 G2 R M HR seed tile_mm px_per_mm macro_count micro_count.
  split; [| intros W; apply generate_camo_draws_seeded].
  unfold generate_camo; cbv zeta.
  destruct (tile_px tile_mm px_per_mm) as [W | e]; cbn [rbind]; [| reflexivity].
  apply (run_same_stream G1 G2 R HR).
  - apply generate_camo_draws_seeded.
  - apply (same_seed _ _ _ HR).
Qed.

Lemma generate_camo_deterministic_witness :
  same_stream Reference.Lcg Reference.LcgCounting (fun s st => s = fst st)
  /\ @generate_camo Reference.Lcg Reference.Poly 12345 640 2.0 42 140
     = @generate_camo Reference.LcgCounting Reference.Poly 12345 640 2.0 42 140.
Proof.
  split; [exact Lcg_counting_same_stream |].
  apply (generate_camo_deterministic Reference.Lcg Reference.LcgCounting
           (fun s st => s = fst st) Reference.Poly Lcg_counting_same_stream).
Defined.

(** A program that asks the module's generator is not determined by the
    seed: the two reference generators deliver the same seeded stream and
    still run it differently. *)
Example module_draw_depends_on_the_process :
  same_stream Reference.Lcg Reference.LcgCounting (fun s st => s = fst st)
  /\ fst (@run Reference.Lcg Q (DrawModule Ret) (@gen_seed Reference.Lcg 12345))
     <> fst (@run Reference.LcgCounting Q (DrawModule Ret)
               (@gen_seed Reference.LcgCounting 12345)).
Proof.
  split; [exact Lcg_counting_same_stream | discriminate].
Qed.

(** C3.  In the list [generate_camo] returns, which is the list in
    generation order sorted by draw order (the same shapes, rearranged),
    every shape of draw order 10 comes before every shape of draw order 30;
    the sort is stable, the macro shapes and the micro shapes each keep
    their generation order; and no other draw order occurs. *)
Theorem generate_camo_draw_order :
  forall (G : RandomSource) (M : Libm)
         (seed tile_mm : Z) (px_per_mm : Q) (macro_count micro_count : Z)
         (W : Z) (shapes : list Shape),
    generate_camo seed tile_mm px_per_mm macro_count micro_count
    = Ok (W, shapes) ->
    exists unsorted : list Shape,
      generate_camo_unsorted seed tile_mm px_per_mm macro_count micro_count
      = Ok unsorted
      /\ shapes = list_sort z unsorted
      /\ Permutation shapes unsorted
      /\ (forall i j s t,
             nth_error shapes i = Some s -> nth_error shapes j = Some t ->
             z s = 10 -> z t = 30 -> (i < j)%nat)
      /\ filter (fun s => z s =? 10) shapes = filter (fun s => z s =? 10) unsorted
      /\ filter (fun s => z s =? 30) shapes = filter (fun s => z s =? 30) unsorted
      /\ Forall (fun s => z s = 10 \/ z s = 30) shapes.
Proof.
  intros G M seed tile_mm px_per_mm macro_count micro_count W shapes E.
  apply generate_camo_sorted in E. destruct E as (_ & unsorted & Eu & ->).
  exists unsorted. split; [exact Eu |]. split; [reflexivity |].
  split; [apply list_sort_perm |].
  split; [| split; [| split]].
  - intros i j s t Hi Hj Hs Ht.
    apply (sorted_before z (list_sort z unsorted) (list_sort_sorted z unsorted)
             i j s t Hi Hj). lia.
  - apply list_sort_stable.
  - apply list_sort_stable.
  - destruct (generate_camo_unsorted_roles _ _ _ _ _ _ Eu)
      as (macros & micros & -> & Hmac & Hmic).
    rewrite (list_sort_id z _ (macro_micro_sorted _ _ Hmac Hmic)).
    apply Forall_app. split.
    + eapply Forall_impl; [| exact Hmac]. intros s [Hz _]. now left.
    + eapply Forall_impl; [| exact Hmic]. intros s [Hz _]. now right.
Qed.

(** C4.  Every shape [generate_camo] returns carries one of the four keys of
    the palette, [C1], [C2], [C3], [C4]; a shape of draw order 10 carries
    [C1] or [C3], a shape of draw order 30 carries [C4] or [C2]. *)
Theorem generate_camo_roles :
  forall (G : RandomSource) (M : Libm)
         (seed tile_mm : Z) (px_per_mm : Q) (macro_count micro_count : Z)
         (W : Z) (shapes : list Shape),
    generate_camo seed tile_mm px_per_mm macro_count micro_count
    = Ok (W, shapes) ->
    map fst PALETTE = ["C1"; "C2"; "C3"; "C4"]%string
    /\ Forall (fun s =>
                 In (color_key s) (map fst PALETTE)
                 /\ (z s = 10 ->
                     color_key s = "C1"%string \/ color_key s = "C3"%string)
                 /\ (z s = 30 ->
                     color_key s = "C4"%string \/ color_key s = "C2"%string))
              shapes.
Proof.
  intros G M seed tile_mm px_per_mm macro_count micro_count W shapes E.
  split; [reflexivity |].
  apply generate_camo_sorted in E. destruct E as (_ & unsorted & Eu & ->).
  destruct (generate_camo_unsorted_roles _ _ _ _ _ _ Eu)
    as (macros & micros & -> & Hmac & Hmic).
  rewrite (list_sort_id z _ (macro_micro_sorted _ _ Hmac Hmic)).
  apply Forall_app. split.
  - eapply Forall_impl; [| exact Hmac]. intros s [Hz Hc].
    split; [destruct Hc as [-> | ->]; simpl; auto |].
    split; intros Hz'; [exact Hc | lia].
  - eapply Forall_impl; [| exact Hmic]. intros s [Hz Hc].
    split; [destruct Hc as [-> | ->]; simpl; auto |].
    split; intros Hz'; [lia | exact Hc].
Qed.

(** [generate_camo] returns whenever there is a macro shape to anchor on or
    no micro shape to place: the macro shapes first, then the micro shapes.
    Here the generator keeps the contract of [_randbelow] and [math.hypot]
    is a length. *)
Lemma generate_camo_macros_then_micros
    (G : RandomSource) (M : Libm)
    (seed tile_mm : Z) (px_per_mm : Q) (macro_count micro_count : Z) (W : Z) :
  tile_px tile_mm px_per_mm = Ok W ->
  randbelow_in_range G -> hypot_nonneg M ->
  0 <= macro_count ->
  1 <= macro_count \/ micro_count <= 0 ->
  exists macros micros,
    generate_camo seed tile_mm px_per_mm macro_count micro_count
    = Ok (W, macros ++ micros)
    /\ Z.of_nat (List.length macros) = macro_count
    /\ Z.of_nat (List.length micros) = Z.max 0 micro_count
    /\ Forall is_macro macros /\ Forall is_micro micros.
Proof.
  intros HW HG HM Hmc Hcase.
  destruct (generate_camo_returns seed tile_mm px_per_mm macro_count micro_count
              W HW HG HM Hmc Hcase)
    as (macros & micros & Eu & Hlmac & Hlmic & Hmac & Hmic).
  exists macros, micros. split; [| repeat split; assumption].
  apply generate_camo_sorted. split; [exact HW |].
  exists (macros ++ micros). split; [exact Eu |].
  symmetry. apply list_sort_id, macro_micro_sorted; assumption.
Qed.

(** The tile of the default configuration: 640 mm at 2.0 px/mm. *)
Lemma tile_px_default : tile_px 640 2.0 = Ok 1280.
Proof. vm_compute. reflexivity. Qed.

Lemma generate_camo_draw_order_witness :
  exists (W : Z) (shapes : list Shape),
    @generate_camo Reference.Lcg Reference.Poly 12345 640 2.0 42 140
    = Ok (W, shapes)
    /\ (forall i j s t,
           nth_error shapes i = Some s -> nth_error shapes j = Some t ->
           z s = 10 -> z t = 30 -> (i < j)%nat).
Proof.
  destruct (generate_camo_macros_then_micros Reference.Lcg Reference.Poly
              12345 640 2.0 42 140 1280 tile_px_default
              Lcg_in_range Poly_hypot_nonneg)
    as (macros & micros & E & _); [lia | lia |].
  eexists. eexists. split; [exact E |].
  destruct (generate_camo_draw_order Reference.Lcg Reference.Poly
              12345 640 2.0 42 140 _ _ E) as (unsorted & _ & _ & _ & H & _).
  exact H.
Defined.

Lemma generate_camo_roles_witness :
  exists (W : Z) (shapes : list Shape),
    @generate_camo Reference.Lcg Reference.Poly 12345 640 2.0 42 140
    = Ok (W, shapes)
    /\ Forall (fun s => In (color_key s) (map fst PALETTE)) shapes.
Proof.
  destruct (generate_camo_macros_then_micros Reference.Lcg Reference.Poly
              12345 640 2.0 42 140 1280 tile_px_default
              Lcg_in_range Poly_hypot_nonneg)
    as (macros & micros & E & _); [lia | lia |].
  eexists. eexists. split; [exact E |].
  destruct (generate_camo_roles Reference.Lcg Reference.Poly
              12345 640 2.0 42 140 _ _ E) as [_ H].
  eapply Forall_impl; [| exact H]. intros s Hs. exact (proj1 Hs).
Defined.

(** C7.  With seed 12345, a 640 mm tile at 2.0 px/mm, 42 macro and 140 micro
    shapes, [generate_camo] returns a tile of 1280 pixels and 182 shapes: the
    first 42 have draw order 10 and the 140 after them draw order 30.  Here
    the generator keeps the contract of [_randbelow] and [math.hypot] is a
    length. *)
Theorem generate_camo_default_scenario :
  forall (G : RandomSource) (M : Libm),
    randbelow_in_range G -> hypot_nonneg M ->
    exists shapes : list Shape,
      generate_camo 12345 640 2.0 42 140 = Ok (1280, shapes)
      /\ List.length shapes = 182%nat
      /\ List.length (firstn 42 shapes) = 42%nat
      /\ Forall (fun s => z s = 10) (firstn 42 shapes)
      /\ List.length (skipn 42 shapes) = 140%nat
      /\ Forall (fun s => z s = 30) (skipn 42 shapes).
Proof.
  intros G M HG HM.
  destruct (generate_camo_macros_then_micros G M 12345 640 2.0 42 140 1280
              tile_px_default HG HM)
    as (macros & micros & E & Hlmac & Hlmic & Hmac & Hmic); [lia | lia |].
  exists (macros ++ micros). split; [exact E |].
  assert (L1 : List.length macros = 42%nat) by lia.
  assert (L2 : List.length micros = 140%nat) by lia.
  assert (F : firstn 42 (macros ++ micros) = macros).
  { rewrite <- L1, firstn_app, Nat.sub_diag, firstn_all. simpl.
    apply app_nil_r. }
  assert (K : skipn 42 (macros ++ micros) = micros).
  { rewrite <- L1, skipn_app, Nat.sub_diag, skipn_all. reflexivity. }
  rewrite F, K, length_app, L1, L2.
  repeat split; try reflexivity.
  - eapply Forall_impl; [| exact Hmac]. now intros s [Hz _].
  - eapply Forall_impl; [| exact Hmic]. now intros s [Hz _].
Qed.

Lemma generate_camo_default_scenario_witness :
  randbelow_in_range Reference.Lcg
  /\ hypot_nonneg Reference.Poly
  /\ exists shapes : list Shape,
       @generate_camo Reference.Lcg Reference.Poly 12345 640 2.0 42 140
       = Ok (1280, shapes)
       /\ List.length shapes = 182%nat.
Proof.
  split; [exact Lcg_in_range |]. split; [exact Poly_hypot_nonneg |].
  destruct (generate_camo_default_scenario Reference.Lcg Reference.Poly
              Lcg_in_range Poly_hypot_nonneg) as (shapes & E & L & _).
  exists shapes. now split.
Defined.

(** C9.  With no macro and no micro shape [generate_camo] computes the tile
    size and returns it with the empty shape list, for every seed and every
    generator; it raises only if the tile size does.  On the empty list the
    summary of [main] reports the ratio 0 for each of the four roles: the
    total area is 0, the guard [total_area > 0] is false, nothing is
    divided. *)
Theorem generate_camo_empty :
  forall (G : RandomSource) (M : Libm) (seed tile_mm : Z) (px_per_mm : Q),
    generate_camo seed tile_mm px_per_mm 0 0
    = (W <- tile_px tile_mm px_per_mm ;; Ok (W, []))%result
    /\ area_report []
       = Ok [("C1", 0.0); ("C3", 0.0); ("C2", 0.0); ("C4", 0.0)]%string%Q
    /\ Qltb 0 0 = false.
Proof.
  intros G M seed tile_mm px_per_mm. split; [| split; reflexivity].
  unfold generate_camo; cbv zeta.
  destruct (tile_px tile_mm px_per_mm) as [W | e]; reflexivity.
Qed.

(** C10.  When the generator keeps the contract of [_randbelow] (and
    [math.hypot] is a length) and the tile size [W] has been computed: with
    at least one macro shape every anchor index is drawn inside the shape
    list, no indexing fails and [generate_camo] returns [W] and all the
    shapes asked for; with no macro shape and at least one micro shape the
    anchor is drawn from an empty range and [generate_camo] raises
    [ValueError].  In that second case [generate_camo] raises for every tile
    and resolution, the tile size computed or not. *)
Theorem generate_camo_anchor :
  forall (G : RandomSource) (M : Libm),
    randbelow_in_range G -> hypot_nonneg M ->
    forall (seed tile_mm : Z) (px_per_mm : Q),
      (forall W : Z,
          tile_px tile_mm px_per_mm = Ok W ->
          (forall macro_count micro_count : Z,
              1 <= macro_count ->
              exists shapes : list Shape,
                generate_camo seed tile_mm px_per_mm macro_count micro_count
                = Ok (W, shapes)
                /\ Z.of_nat (List.length shapes)
                   = macro_count + Z.max 0 micro_count)
          /\ (forall micro_count : Z,
                 1 <= micro_count ->
                 generate_camo seed tile_mm px_per_mm 0 micro_count
                 = Raise ValueError))
      /\ (forall micro_count : Z,
             1 <= micro_count ->
             exists e : exn,
               generate_camo seed tile_mm px_per_mm 0 micro_count = Raise e).
Proof.
  intros G M HG HM seed tile_mm px_per_mm.
  assert (Hraise : forall W micro_count,
             tile_px tile_mm px_per_mm = Ok W -> 1 <= micro_count ->
             generate_camo seed tile_mm px_per_mm 0 micro_count
             = Raise ValueError).
  { intros W micro_count HW Hmi. apply generate_camo_raises.
    unfold generate_camo_unsorted; cbv zeta. rewrite HW. cbn [rbind].
    exact (wp_sound in_range_draw HG _ _ (gen_seed seed)
             (generate_shapes_no_anchor HM px_per_mm W W micro_count Hmi)). }
  split.
  - intros W HW. split.
    + intros macro_count micro_count Hmc.
      destruct (generate_camo_macros_then_micros G M seed tile_mm px_per_mm
                  macro_count micro_count W HW HG HM)
        as (macros & micros & E & Hlmac & Hlmic & _); [lia | lia |].
      exists (macros ++ micros). split; [exact E |].
      rewrite length_app. lia.
    + intros micro_count Hmi. now apply (Hraise W).
  - intros micro_count Hmi.
    destruct (tile_px tile_mm px_per_mm) as [W | e] eqn:HW.
    + exists ValueError. now apply (Hraise W).
    + exists e. unfold generate_camo; cbv zeta. now rewrite HW.
Qed.

Lemma generate_camo_anchor_witness :
  randbelow_in_range Reference.Lcg
  /\ hypot_nonneg Reference.Poly
  /\ (exists shapes : list Shape,
         @generate_camo Reference.Lcg Reference.Poly 7 640 2.0 1 3
         = Ok (1280, shapes)
         /\ Z.of_nat (List.length shapes) = 4)
  /\ @generate_camo Reference.Lcg Reference.Poly 7 640 2.0 0 3
     = Raise ValueError.
Proof.
  split; [exact Lcg_in_range |]. split; [exact Poly_hypot_nonneg |].
  pose proof (generate_camo_anchor Reference.Lcg Reference.Poly
                Lcg_in_range Poly_hypot_nonneg 7 640 2.0) as [Hok _].
  destruct (Hok 1280 tile_px_default) as [Hret Hraise].
  split.
  - apply (Hret 1 3). lia.
  - apply (Hraise 3). lia.
Defined.

(* ================================================================== *)
(** * The definitions on small inputs *)

Example py_round_ties :
  map py_round [0.5; 1.5; 2.5; 0.3; 12.6; 21.0; -0.5; -1.5]%Q
  = [0; 2; 2; 0; 13; 21; 0; -2].
Proof. reflexivity. Qed.

(** A one-millimetre tile at 0.4 px/mm has a tile size of 0 pixels. *)
Example tile_size_can_be_zero : tile_px 1 0.4 = Ok 0.
Proof. vm_compute. reflexivity. Qed.

(** The product is rounded to a double before it is rounded to an integer:
    150 times the double nearest to 0.07 is a little more than 10.5.  A
    product too large for a double raises, and so does an integer that is. *)
Example tile_px_rounds_twice :
  tile_px 150 0.07 = Ok 11
  /\ py_round (inject_Z 150 * 0.07)%Q = 10
  /\ tile_px 640 1e306 = Raise OverflowError
  /\ tile_px (10 ^ 400) 0 = Raise OverflowError.
Proof. vm_compute. repeat split. Qed.

Example round_binary64_literals :
  map round_binary64 [0.5; 0.1; 1e400; -1e400; 1e-400]%Q
  = [Finite (1 # 2); Finite (3602879701896397 # 36028797018963968);
     Infinity false; Infinity true; Finite 0].
Proof. vm_compute. reflexivity. Qed.

Example macro_class_counts_42 : macro_class_counts 42 = (21, 13, 8).
Proof. reflexivity. Qed.

Example macro_class_counts_small :
  map macro_class_counts [0; 1; 2; 3; 4; 5]
  = [(0, 0, 0); (0, 0, 1); (1, 1, 0); (2, 1, 0); (2, 1, 1); (2, 2, 1)].
Proof. reflexivity. Qed.

Example hex_to_rgb_palette :
  map (fun kv => hex_to_rgb (snd kv)) PALETTE
  = [Ok (129, 97, 60); Ok (124, 109, 102); Ok (75, 83, 32); Ok (122, 139, 122)].
Proof. reflexivity. Qed.

Example hex_to_rgb_rejects :
  map hex_to_rgb ["81613C"; "#81613"; "#81613CC"; "#8161zz"; ""]%string
  = [Raise ValueError; Raise ValueError; Raise ValueError; Raise ValueError;
     Raise ValueError].
Proof. reflexivity. Qed.

Example int_base16_forms :
  map int_base16 ["ff"; "0x_f"; " -0Xff "; "f__f"; "_f"; "f_"; "0x"; ""]%string
  = [Ok 255; Ok 15; Ok (-255); Raise ValueError; Raise ValueError;
     Raise ValueError; Raise ValueError; Raise ValueError].
Proof. reflexivity. Qed.

Example polygon_area_right_triangle :
  polygon_area (double_points [(0, 0); (4, 0); (4, 3)]%Q) = Ok (Finite 6).
Proof. vm_compute. reflexivity. Qed.

Example wrapped_instances_point :
  wrapped_instances [(1, 2)]%Q 10 10
  = [[(-9, -8)]; [(-9, 2)]; [(-9, 12)]; [(1, -8)]; [(1, 2)]; [(1, 12)];
     [(11, -8)]; [(11, 2)]; [(11, 12)]]%Q.
Proof. reflexivity. Qed.

Example list_sort_keeps_ties :
  list_sort fst [(30, 1); (10, 2); (30, 3); (10, 4)]
  = [(10, 2); (10, 4); (30, 1); (30, 3)].
Proof. reflexivity. Qed.

Example shuffle_with_reference_generator :
  fst (@run Reference.Lcg _ (rng_shuffle [1; 2; 3; 4; 5]) (@gen_seed Reference.Lcg 7))
  = Ok [2; 1; 4; 3; 5].
Proof. vm_compute. reflexivity. Qed.

Example generate_camo_without_macros :
  @generate_camo Reference.Lcg Reference.Poly 12345 640 2.0 0 0 = Ok (1280, []).
Proof. reflexivity. Qed.

(* ================================================================== *)
(** * Point counts under the transformations *)

(** X6.  [rotate_points] works point by point: it returns as many points as
    it is given, and rotating one list followed by another gives the
    rotation of the first followed by the rotation of the second. *)
Theorem rotate_points_length :
  forall (M : Libm) (poly poly' : list Point) (angle : Q),
    List.length (rotate_points poly angle) = List.length poly
    /\ rotate_points (poly ++ poly') angle
       = rotate_points poly angle ++ rotate_points poly' angle.
Proof.
  intros M poly poly' angle. rewrite !rotate_points_map. split.
  - apply length_map.
  - apply map_app.
Qed.

(** X7.  For every tile width and height, [wrapped_instances] returns nine
    polygons, each with as many points as the input polygon. *)
Theorem wrapped_instances_same_length :
  forall (poly : list Point) (W H : Z),
    List.length (wrapped_instances poly W H) = 9%nat
    /\ Forall (fun inst => List.length inst = List.length poly)
              (wrapped_instances poly W H).
Proof.
  intros poly W H.
  assert (E : wrapped_instances poly W H
              = map (fun off => translate_points poly (inject_Z (fst off))
                                                 (inject_Z (snd off)))
                    (list_prod [- W; 0; W] [- H; 0; H])) by reflexivity.
  split; [rewrite E; reflexivity |].
  rewrite E. apply Forall_map. apply Forall_forall. intros off _.
  unfold translate_points. apply length_map.
Qed.

(* ================================================================== *)
(** * More on colour strings *)

Section Normalisation.

Open Scope string_scope.

Lemma is_space_to_lower (c : ascii) : is_space (to_lower c) = is_space c.
Proof.
  apply eqb_prop.
  apply (ascii_forall (fun c => Bool.eqb (is_space (to_lower c)) (is_space c))).
  vm_compute. reflexivity.
Qed.

Lemma to_lower_idem (c : ascii) : to_lower (to_lower c) = to_lower c.
Proof.
  apply Ascii.eqb_eq.
  apply (ascii_forall (fun c => Ascii.eqb (to_lower (to_lower c)) (to_lower c))).
  vm_compute. reflexivity.
Qed.

Lemma str_lower_idem (s : string) : str_lower (str_lower s) = str_lower s.
Proof.
  induction s as [| c s IH]; simpl; [reflexivity |].
  now rewrite to_lower_idem, IH.
Qed.

Lemma str_lstrip_lower (s : string) :
  str_lstrip (str_lower s) = str_lower (str_lstrip s).
Proof.
  induction s as [| c s IH]; [reflexivity |].
  cbn [str_lower str_lstrip]. rewrite is_space_to_lower.
  destruct (is_space c); [exact IH | reflexivity].
Qed.

Lemma str_rstrip_lower (s : string) :
  str_rstrip (str_lower s) = str_lower (str_rstrip s).
Proof.
  induction s as [| c s IH]; [reflexivity |].
  cbn [str_lower str_rstrip]. rewrite IH, is_space_to_lower.
  destruct (str_rstrip s); cbn [str_lower]; [| reflexivity].
  now destruct (is_space c).
Qed.

Lemma str_strip_lower (s : string) :
  str_strip (str_lower s) = str_lower (str_strip s).
Proof.
  unfold str_strip. now rewrite str_lstrip_lower, str_rstrip_lower.
Qed.

Lemma str_lstrip_length (s : string) :
  (String.length (str_lstrip s) <= String.length s)%nat.
Proof.
  induction s as [| c s IH]; [apply le_n |].
  cbn [str_lstrip]. destruct (is_space c); simpl in *; lia.
Qed.

Lemma str_rstrip_idem (s : string) : str_rstrip (str_rstrip s) = str_rstrip s.
Proof.
  induction s as [| c s IH]; [reflexivity |].
  cbn [str_rstrip]. destruct (str_rstrip s) as [| d r] eqn:E.
  - destruct (is_space c) eqn:Ec; [reflexivity |].
    cbn [str_rstrip]. now rewrite Ec.
  - cbn [str_rstrip]. cbn [str_rstrip] in IH. now rewrite IH.
Qed.

Lemma str_lstrip_rstrip (t : string) :
  str_lstrip t = t -> str_lstrip (str_rstrip t) = str_rstrip t.
Proof.
  destruct t as [| c t]; [reflexivity |]. intros H.
  assert (Ec : is_space c = false).
  { destruct (is_space c) eqn:Ec; [| reflexivity].
    cbn [str_lstrip] in H. rewrite Ec in H.
    pose proof (str_lstrip_length t) as L. rewrite H in L. simpl in L. lia. }
  cbn [str_rstrip]. destruct (str_rstrip t); rewrite ?Ec;
    cbn [str_lstrip]; now rewrite Ec.
Qed.

Lemma str_lstrip_idem (s : string) : str_lstrip (str_lstrip s) = str_lstrip s.
Proof.
  induction s as [| c s IH]; [reflexivity |].
  cbn [str_lstrip]. destruct (is_space c) eqn:Ec; [exact IH |].
  cbn [str_lstrip]. now rewrite Ec.
Qed.

Lemma str_strip_idem (s : string) : str_strip (str_strip s) = str_strip s.
Proof.
  unfold str_strip.
  rewrite (str_lstrip_rstrip (str_lstrip s) (str_lstrip_idem s)).
  apply str_rstrip_idem.
Qed.

Lemma pair_bounded_all (a b : ascii) : pair_bounded a b = true.
Proof.
  assert (H : forall a, forallb (fun n => pair_bounded a (ascii_of_nat n)) all_codes = true).
  { apply (ascii_forall
             (fun a => forallb (fun n => pair_bounded a (ascii_of_nat n)) all_codes)).
    vm_compute. reflexivity. }
  apply (ascii_forall (pair_bounded a)). apply H.
Qed.

Lemma int_base16_pair_bounds (a b : ascii) (v : Z) :
  int_base16 (String a (String b "")) = Ok v -> (-15 <= v <= 255)%Z.
Proof.
  intros H. pose proof (pair_bounded_all a b) as P.
  unfold pair_bounded in P. rewrite H in P.
  apply andb_prop in P. destruct P as [P1 P2]. lia.
Qed.

End Normalisation.

(** X8.  The result of [hex_to_rgb], value or exception, does not depend on
    whitespace around the string nor on the case of its letters: stripping
    or lower-casing the argument beforehand changes nothing. *)
Theorem hex_to_rgb_insensitive :
  forall h : string,
    hex_to_rgb (str_strip h) = hex_to_rgb h
    /\ hex_to_rgb (str_lower h) = hex_to_rgb h.
Proof.
  intros h. unfold hex_to_rgb; cbv zeta. split.
  - now rewrite str_strip_idem.
  - now rewrite str_strip_lower, str_lower_idem.
Qed.

(** X9.  Whenever [hex_to_rgb] returns, its argument, once stripped, has
    exactly 7 characters and starts with [#], and each of the three numbers
    returned lies between -15 and 255 (a group may carry a minus sign). *)
Theorem hex_to_rgb_returns_only :
  forall (h : string) (r g b : Z),
    hex_to_rgb h = Ok (r, g, b) ->
    String.length (str_strip h) = 7%nat
    /\ str_startswith (str_strip h) "#" = true
    /\ -15 <= r <= 255 /\ -15 <= g <= 255 /\ -15 <= b <= 255.
Proof.
  intros h r g b. unfold hex_to_rgb; cbv zeta.
  rewrite str_lower_startswith_hash.
  pose proof (str_lower_length (str_strip h)) as Hlen.
  destruct (str_startswith (str_strip h) "#") eqn:Eh; [| discriminate].
  destruct (Nat.eqb_spec (String.length (str_lower (str_strip h))) 7)
    as [E7 | N7]; [| discriminate].
  cbn [negb orb]. intros H.
  split; [congruence |]. split; [reflexivity |].
  destruct (str_lower (str_strip h))
    as [| c0 [| c1 [| c2 [| c3 [| c4 [| c5 [| c6 [| ? ?]]]]]]]];
    try discriminate.
  cbn [str_slice substring Nat.sub] in H.
  destruct (int_base16 (String c1 (String c2 ""))) as [v1 |] eqn:E1;
    [| discriminate].
  destruct (int_base16 (String c3 (String c4 ""))) as [v2 |] eqn:E2;
    [| discriminate].
  destruct (int_base16 (String c5 (String c6 ""))) as [v3 |] eqn:E3;
    [| discriminate].
  cbn [rbind] in H. inversion H; subst.
  apply int_base16_pair_bounds in E1, E2, E3. lia.
Qed.

Lemma hex_to_rgb_returns_only_witness :
  hex_to_rgb "#+1-f f" = Ok (1, -15, 15)
  /\ String.length (str_strip "#+1-f f") = 7%nat
  /\ -15 <= -15 <= 255.
Proof.
  assert (H : hex_to_rgb "#+1-f f" = Ok (1, -15, 15)) by reflexivity.
  split; [exact H |].
  destruct (hex_to_rgb_returns_only "#+1-f f" 1 (-15) 15 H)
    as (L & _ & _ & B & _).
  split; [exact L | exact B].
Defined.

(* ================================================================== *)
(** * More rules for programs that draw *)

Section MoreRules.

Context {A : Type}.

Lemma wp_conj (C : Z -> Z -> Prop) (p : rand A) (Q1 Q2 : result A -> Prop) :
  wp C p Q1 -> wp C p Q2 -> wp C p (fun r => Q1 r /\ Q2 r).
Proof.
  induction p as [a | e | k IH | n k IH | k IH]; simpl; intros H1 H2.
  - now split.
  - now split.
  - intros r. now apply IH.
  - intros i Hi. apply IH; [now apply H1 | now apply H2].
  - intros r. now apply IH.
Qed.

(** A contract that promises less asks more of the program. *)
Lemma wp_any_draw (C : Z -> Z -> Prop) (p : rand A) (Q : result A -> Prop) :
  wp any_draw p Q -> wp C p Q.
Proof.
  induction p as [a | e | k IH | n k IH | k IH]; simpl; intros H.
  - exact H.
  - exact H.
  - intros r. apply IH, H.
  - intros i _. apply IH, H. exact I.
  - intros r. apply IH, H.
Qed.

Lemma wp_lift_partial {B : Type} (C : Z -> Z -> Prop) (r : result B)
    (f : B -> rand A) (Q : result A -> Prop) :
  (forall b, r = Ok b -> wp C (f b) Q) ->
  (forall e, Q (Raise e)) ->
  wp C (bind (lift r) f) Q.
Proof.
  intros Hok Hraise. destruct r as [b | e]; simpl.
  - now apply Hok.
  - apply Hraise.
Qed.

Lemma wp_randint_partial (lo hi : Z) (f : Z -> rand A) (Q : result A -> Prop) :
  (forall v, lo <= v <= hi -> wp in_range_draw (f v) Q) ->
  Q (Raise ValueError) ->
  wp in_range_draw (bind (rng_randint lo hi) f) Q.
Proof.
  intros Hok Hraise. destruct (Z_le_gt_dec lo hi) as [Hle | Hgt].
  - now apply wp_randint.
  - unfold rng_randint. apply wp_randrange_empty; [lia | exact Hraise].
Qed.

End MoreRules.

(* ================================================================== *)
(** * The size of a blob *)

Section BlobSize.

Context {M : Libm}.

Lemma random_blob_size (r_min r_max : Q) (n_base jag_subdiv : Z * Z)
    (jag_amp : Q * Q) :
  1 <= fst n_base ->
  0 <= fst jag_subdiv ->
  wp in_range_draw (random_blob r_min r_max n_base jag_subdiv jag_amp)
     (if_returns (fun dent =>
        fst n_base * (1 + fst jag_subdiv)
        <= Z.of_nat (List.length dent)
        <= snd n_base * (1 + snd jag_subdiv))).
Proof.
  intros Hlo Hklo. unfold random_blob.
  apply wp_randint_partial; [| exact I]. intros n Hn.
  apply wp_uniform. intros base_r.
  apply wp_bind_any; [| intros e; exact I]. intros pts.
  apply (wp_for_each in_range_draw
           (fun done (dent : list Point) =>
              Z.of_nat (List.length done) * (1 + fst jag_subdiv)
              <= Z.of_nat (List.length dent)
              <= Z.of_nat (List.length done) * (1 + snd jag_subdiv))).
  - intros done i rest dent _ Hinv.
    apply wp_lift_partial; [| intros e; exact I]. intros [x1 y1] _.
    apply wp_lift_partial; [| intros e; exact I]. intros i1 _.
    apply wp_lift_partial; [| intros e; exact I]. intros [x2 y2] _.
    apply wp_randint_partial; [| exact I]. intros k Hk.
    apply (wp_for_each in_range_draw
             (fun done' (dent' : list Point) =>
                Z.of_nat (List.length dent')
                = Z.of_nat (List.length dent) + 1 + Z.of_nat (List.length done'))).
    + intros done' j rest' dent' _ Hinv'.
      apply wp_lift_partial; [| intros e; exact I]. intros t _.
      apply wp_lift_partial; [| intros e; exact I]. intros nx _.
      apply wp_lift_partial; [| intros e; exact I]. intros ny _.
      apply wp_uniform. intros u. apply wp_random. intros r.
      cbn [wp]. unfold Point in *. rewrite !length_app. cbn [List.length].
      lia.
    + intros dent' Hinv'. rewrite py_range_length in Hinv'.
      unfold Point in *. rewrite length_app. cbn [List.length].
      replace (Z.of_nat (List.length done + 1))
        with (Z.of_nat (List.length done) + 1) by lia.
      replace (Z.of_nat (Z.to_nat (k + 1 - 1))) with k in Hinv' by lia.
      nia.
    + unfold Point in *. rewrite length_app. cbn [List.length]. lia.
  - intros dent Hinv. cbn [if_returns]. rewrite py_range_length in Hinv.
    replace (Z.of_nat (Z.to_nat (n - 0))) with n in Hinv by lia.
    nia.
  - simpl. lia.
Qed.

(** Both facts at once: the blob is returned, and has the size. *)
Lemma random_blob_returns_size (r_min r_max : Q) (n_base jag_subdiv : Z * Z)
    (jag_amp : Q * Q) :
  hypot_nonneg M ->
  1 <= fst n_base <= snd n_base ->
  0 <= fst jag_subdiv <= snd jag_subdiv ->
  wp in_range_draw (random_blob r_min r_max n_base jag_subdiv jag_amp)
     (returns (fun dent =>
        fst n_base * (1 + fst jag_subdiv)
        <= Z.of_nat (List.length dent)
        <= snd n_base * (1 + snd jag_subdiv))).
Proof.
  intros HM Hn Hk.
  eapply wp_mono;
    [| apply wp_conj;
       [apply (random_blob_returns HM r_min r_max n_base jag_subdiv jag_amp);
        [exact Hn | lia]
       | apply (random_blob_size r_min r_max n_base jag_subdiv jag_amp); lia]].
  intros [dent | e] [H1 H2]; [exact H2 | exact H1].
Qed.

End BlobSize.

(** X10.  When the generator keeps the contract of [_randbelow] and
    [math.hypot] is a length, [random_blob] with a vertex-count range
    [lo..hi], [1 <= lo <= hi], and a subdivision range [klo..khi],
    [0 <= klo <= khi], returns a polygon of at least [lo * (1 + klo)] and at
    most [hi * (1 + khi)] points: 14 to 52 with the default ranges. *)
Theorem random_blob_point_count :
  forall (G : RandomSource) (M : Libm),
    randbelow_in_range G -> hypot_nonneg M ->
    forall (r_min r_max : Q) (n_base jag_subdiv : Z * Z) (jag_amp : Q * Q)
           (s : gen_state),
      1 <= fst n_base <= snd n_base ->
      0 <= fst jag_subdiv <= snd jag_subdiv ->
      exists dent : list Point,
        fst (run (random_blob r_min r_max n_base jag_subdiv jag_amp) s) = Ok dent
        /\ fst n_base * (1 + fst jag_subdiv)
           <= Z.of_nat (List.length dent)
           <= snd n_base * (1 + snd jag_subdiv).
Proof.
  intros G M HG HM r_min r_max n_base jag_subdiv jag_amp s Hn Hk.
  pose proof (wp_sound in_range_draw HG _ _ s
                (random_blob_returns_size r_min r_max n_base jag_subdiv jag_amp
                   HM Hn Hk)) as H.
  destruct (fst (run _ s)) as [dent | e]; [| contradiction].
  now exists dent.
Qed.

Lemma random_blob_point_count_witness :
  randbelow_in_range Reference.Lcg
  /\ hypot_nonneg Reference.Poly
  /\ exists dent : list Point,
       fst (@run Reference.Lcg _
              (@random_blob Reference.Poly 50 72 (7, 13) (1, 3) (0.10, 0.30)%Q)
              (@gen_seed Reference.Lcg 12345)) = Ok dent
       /\ 14 <= Z.of_nat (List.length dent) <= 52.
Proof.
  split; [exact Lcg_in_range |]. split; [exact Poly_hypot_nonneg |].
  apply (random_blob_point_count Reference.Lcg Reference.Poly
           Lcg_in_range Poly_hypot_nonneg 50 72 (7, 13) (1, 3) (0.10, 0.30)%Q);
    simpl; lia.
Defined.

(** X11.  With an empty vertex-count range, [n_base[0] > n_base[1]],
    [random_blob] raises [ValueError] at once, for every generator, and
    leaves the generator where it was: nothing has been drawn. *)
Theorem random_blob_empty_range :
  forall (G : RandomSource) (M : Libm) (r_min r_max : Q)
         (n_base jag_subdiv : Z * Z) (jag_amp : Q * Q) (s : gen_state),
    snd n_base < fst n_base ->
    run (random_blob r_min r_max n_base jag_subdiv jag_amp) s
    = (Raise ValueError, s).
Proof.
  intros G M r_min r_max n_base jag_subdiv jag_amp s Hempty.
  unfold random_blob, rng_randint, rng_randrange; cbv zeta.
  destruct (Z.ltb_spec 0 (snd n_base + 1 - fst n_base)) as [Hw | Hw]; [lia |].
  reflexivity.
Qed.

Lemma random_blob_empty_range_witness :
  snd (13, 7) < fst (13, 7)
  /\ @run Reference.Lcg _
       (@random_blob Reference.Poly 50 72 (13, 7) (1, 3) (0.10, 0.30)%Q) 99
     = (Raise ValueError, 99).
Proof.
  split; [simpl; lia |].
  apply (random_blob_empty_range Reference.Lcg Reference.Poly). simpl. lia.
Defined.

(** X12.  With a vertex-count range that allows no vertex,
    [n_base[0] <= n_base[1] <= 0], [random_blob] returns the empty polygon:
    both loops are skipped and nothing is divided by the count. *)
Theorem random_blob_no_vertex :
  forall (G : RandomSource) (M : Libm),
    randbelow_in_range G ->
    forall (r_min r_max : Q) (n_base jag_subdiv : Z * Z) (jag_amp : Q * Q)
           (s : gen_state),
      fst n_base <= snd n_base <= 0 ->
      fst (run (random_blob r_min r_max n_base jag_subdiv jag_amp) s) = Ok [].
Proof.
  intros G M HG r_min r_max n_base jag_subdiv jag_amp s Hn.
  apply (wp_sound in_range_draw HG _ (fun r => r = Ok [])).
  unfold random_blob.
  apply wp_randint; [lia |]. intros n Hn'.
  apply wp_uniform. intros base_r.
  assert (E : py_range 0 n = []).
  { unfold py_range. replace (Z.to_nat (n - 0)) with 0%nat by lia. reflexivity. }
  rewrite E. reflexivity.
Qed.

Lemma random_blob_no_vertex_witness :
  randbelow_in_range Reference.Lcg
  /\ fst (-2, 0) <= snd (-2, 0) <= 0
  /\ fst (@run Reference.Lcg _
            (@random_blob Reference.Poly 50 72 (-2, 0) (1, 3) (0.10, 0.30)%Q) 99)
     = Ok [].
Proof.
  split; [exact Lcg_in_range |]. split; [simpl; lia |].
  apply (random_blob_no_vertex Reference.Lcg Reference.Poly Lcg_in_range).
  simpl. lia.
Defined.

(* ================================================================== *)
(** * Counts and sizes in [generate_camo] *)

Lemma list_set_length {A : Type} (l l' : list A) (i : Z) (v : A) :
  list_set l i v = Ok l' -> List.length l' = List.length l.
Proof.
  unfold list_set; cbv zeta.
  remember (if i <? 0 then i + Z.of_nat (List.length l) else i) as j eqn:Ej.
  clear Ej.
  destruct (Z.ltb_spec j 0) as [Hneg | Hpos]; [discriminate |].
  destruct (Z.leb_spec (Z.of_nat (List.length l)) j) as [Hbig | Hin];
    [discriminate |].
  cbn [orb]. intros H.
  assert (E : l' = firstn (Z.to_nat j) l ++ v :: skipn (S (Z.to_nat j)) l)
    by congruence.
  rewrite E, length_app, length_firstn.
  change (List.length (v :: skipn (S (Z.to_nat j)) l))
    with (S (List.length (skipn (S (Z.to_nat j)) l))).
  rewrite length_skipn. lia.
Qed.

Lemma rng_shuffle_length {A : Type} (x : list A) :
  wp any_draw (rng_shuffle x)
     (if_returns (fun x' => List.length x' = List.length x)).
Proof.
  unfold rng_shuffle.
  apply (wp_for_each any_draw
           (fun _ (y : list A) => List.length y = List.length x)).
  - intros done i rest y _ Hy. intros j _.
    apply wp_lift_partial; [| intros e; exact I]. intros xj _.
    apply wp_lift_partial; [| intros e; exact I]. intros xi _.
    apply wp_lift_partial; [| intros e; exact I]. intros y1 E1.
    destruct (list_set y1 j xi) as [y2 | e] eqn:E2; [| exact I].
    cbn [lift wp]. apply list_set_length in E1, E2. congruence.
  - intros y Hy. exact Hy.
  - reflexivity.
Qed.

Lemma macro_sizes_mm_nonpos (macro_count : Z) :
  macro_count <= 0 -> macro_sizes_mm macro_count = [].
Proof.
  intros Hn. unfold macro_sizes_mm, macro_class_counts.
  set (n_mid := py_round (inject_Z macro_count * 0.50)%Q).
  set (n_big := py_round (inject_Z macro_count * 0.30)%Q).
  assert (Hq : (inject_Z macro_count <= 0)%Q).
  { change 0%Q with (inject_Z 0). now rewrite <- Zle_Qle. }
  pose proof (py_round_upper (inject_Z macro_count * 0.50)%Q) as Umid.
  pose proof (py_round_upper (inject_Z macro_count * 0.30)%Q) as Ubig.
  pose proof (py_round_lower (inject_Z macro_count * 0.50)%Q) as Lmid.
  pose proof (py_round_lower (inject_Z macro_count * 0.30)%Q) as Lbig.
  fold n_mid in Umid, Lmid. fold n_big in Ubig, Lbig.
  change 0.50%Q with (50 # 100)%Q in *. change 0.30%Q with (30 # 100)%Q in *.
  assert (Hmid : n_mid <= 0).
  { assert (H : (inject_Z n_mid < inject_Z 1)%Q)
      by (change (inject_Z 1) with 1%Q; lra).
    rewrite <- Zlt_Qlt in H. lia. }
  assert (Hbig : n_big <= 0).
  { assert (H : (inject_Z n_big < inject_Z 1)%Q)
      by (change (inject_Z 1) with 1%Q; lra).
    rewrite <- Zlt_Qlt in H. lia. }
  assert (Hhuge : macro_count - n_mid - n_big <= 0).
  { destruct (Z.eq_dec macro_count 0) as [-> | Hnz].
    - subst n_mid n_big. vm_compute. discriminate.
    - assert (H1 : (inject_Z macro_count <= inject_Z (-1))%Q).
      { rewrite <- Zle_Qle. lia. }
      change (inject_Z (-1)) with (-1 # 1)%Q in H1.
      assert (H : (inject_Z (macro_count - n_mid - n_big) < inject_Z 1)%Q).
      { unfold Z.sub. rewrite !inject_Z_plus, !inject_Z_opp.
        change (inject_Z 1) with 1%Q. lra. }
      rewrite <- Zlt_Qlt in H. lia. }
  unfold list_repeat.
  replace (Z.to_nat n_mid) with 0%nat by lia.
  replace (Z.to_nat n_big) with 0%nat by lia.
  replace (Z.to_nat (macro_count - n_mid - n_big)) with 0%nat by lia.
  reflexivity.
Qed.

Section Counts.

Context {M : Libm}.

Lemma place_macro_appends (px_per_mm : Q) (W H : Z)
    (shapes : list Shape) (size : Z * Z) :
  wp any_draw (place_macro px_per_mm W H shapes size)
     (if_returns (fun shapes' => exists s, shapes' = shapes ++ [s])).
Proof.
  unfold place_macro. destruct size as [a_mm b_mm].
  wp_skip as poly0. wp_skip as ang. wp_skip as sx. wp_skip as sy.
  wp_skip as cx. wp_skip as cy. wp_skip as color_key.
  cbn [wp if_returns]. eexists. reflexivity.
Qed.

Lemma place_micro_appends (px_per_mm : Q) (shapes : list Shape) (i : Z) :
  wp any_draw (place_micro px_per_mm shapes i)
     (if_returns (fun shapes' => exists s, shapes' = shapes ++ [s])).
Proof.
  eapply wp_mono;
    [| apply (place_micro_role px_per_mm shapes i shapes []);
       [now rewrite app_nil_r | constructor]].
  intros [shapes' | e] Hr; [| exact I]. cbn [if_returns] in *.
  destruct Hr as (s & -> & _). now exists s.
Qed.

(** Whatever the generator answers, a run that returns has made one shape
    per entry of the size list and per micro turn. *)
Lemma generate_shapes_count (px_per_mm : Q) (W H macro_count micro_count : Z) :
  wp any_draw (generate_shapes px_per_mm W H macro_count micro_count)
     (if_returns (fun shapes =>
        List.length shapes
        = (List.length (macro_sizes_mm macro_count) + Z.to_nat micro_count)%nat)).
Proof.
  unfold generate_shapes. apply wp_bind.
  eapply wp_mono; [| apply rng_shuffle_length].
  intros [sizes | e] Hsizes; [| exact I]. cbn [if_returns] in Hsizes.
  apply wp_bind.
  apply (wp_for_each any_draw
           (fun done shapes => List.length shapes = List.length done)).
  - intros done x rest shapes _ Hlen.
    eapply wp_mono; [| apply place_macro_appends].
    intros [shapes' | e] Hr; [| exact I]. cbn [if_returns] in Hr.
    destruct Hr as (s & ->). now rewrite !length_app, Hlen.
  - intros macros Hmac.
    apply (wp_for_each any_draw
             (fun done shapes =>
                List.length shapes
                = (List.length macros + List.length done)%nat)).
    + intros done x rest shapes _ Hlen.
      eapply wp_mono; [| apply place_micro_appends].
      intros [shapes' | e] Hr; [| exact I]. cbn [if_returns] in Hr.
      destruct Hr as (s & ->). rewrite !length_app, Hlen. simpl. lia.
    + intros shapes Hlen. cbn [if_returns].
      rewrite Hlen, Hmac, Hsizes, py_range_length. f_equal. f_equal. lia.
    + simpl. lia.
  - reflexivity.
Qed.

Lemma place_macro_points (px_per_mm : Q) (W H : Z)
    (shapes : list Shape) (size : Z * Z) :
  wp in_range_draw (place_macro px_per_mm W H shapes size)
     (if_returns (fun shapes' => exists s, shapes' = shapes ++ [s] /\ sized s)).
Proof.
  unfold place_macro. destruct size as [a_mm b_mm].
  apply wp_bind.
  eapply wp_mono; [| apply random_blob_size; simpl; lia].
  intros [poly0 | e] Hsize; [| exact I]. cbn [if_returns fst snd] in Hsize.
  apply wp_any_draw.
  wp_skip as ang. wp_skip as sx. wp_skip as sy.
  wp_skip as cx. wp_skip as cy. wp_skip as color_key.
  cbn [wp if_returns]. eexists. split; [reflexivity |].
  left. split; [reflexivity |]. cbn [poly]. unfold translate_points.
  rewrite !length_map, rotate_points_map, length_map.
  unfold macro_points, Point in *. lia.
Qed.

Lemma place_micro_points (px_per_mm : Q) (shapes : list Shape) (i : Z) :
  wp in_range_draw (place_micro px_per_mm shapes i)
     (if_returns (fun shapes' => exists s, shapes' = shapes ++ [s] /\ sized s)).
Proof.
  unfold place_micro.
  apply wp_uniform. intros micro_mm. apply wp_bind.
  eapply wp_mono; [| apply random_blob_size; simpl; lia].
  intros [micro0 | e] Hsize; [| exact I]. cbn [if_returns fst snd] in Hsize.
  apply wp_any_draw.
  wp_skip as ang. wp_skip as idx.
  wp_skip as tgt. wp_skip as k. wp_skip as [x1 y1]. wp_skip as k1.
  wp_skip as [x2 y2]. wp_skip as t. wp_skip as nx. wp_skip as ny.
  wp_skip as u. wp_skip as r. wp_skip as [px2 py2].
  simpl. intros r'. eexists. split; [reflexivity |].
  right. split; [reflexivity |]. cbn [poly]. unfold translate_points.
  rewrite length_map, rotate_points_map, length_map.
  unfold micro_points, Point in *. lia.
Qed.

Lemma generate_shapes_points (px_per_mm : Q) (W H macro_count micro_count : Z) :
  wp in_range_draw (generate_shapes px_per_mm W H macro_count micro_count)
     (if_returns (Forall sized)).
Proof.
  unfold generate_shapes.
  apply wp_bind_any; [| intros e; exact I]. intros sizes.
  apply wp_bind.
  apply (wp_for_each in_range_draw (fun _ shapes => Forall sized shapes)).
  - intros done x rest shapes _ Hs.
    eapply wp_mono; [| apply place_macro_points].
    intros [shapes' | e] Hr; [| exact I]. cbn [if_returns] in Hr.
    destruct Hr as (s & -> & Hsz). apply Forall_app. split; [exact Hs |].
    constructor; [exact Hsz | constructor].
  - intros macros Hmac.
    apply (wp_for_each in_range_draw (fun _ shapes => Forall sized shapes)).
    + intros done x rest shapes _ Hs.
      eapply wp_mono; [| apply place_micro_points].
      intros [shapes' | e] Hr; [| exact I]. cbn [if_returns] in Hr.
      destruct Hr as (s & -> & Hsz). apply Forall_app. split; [exact Hs |].
      constructor; [exact Hsz | constructor].
    + intros shapes Hs. exact Hs.
    + exact Hmac.
  - constructor.
Qed.

End Counts.

Lemma macro_sizes_mm_clamp (macro_count : Z) :
  macro_sizes_mm macro_count = macro_sizes_mm (Z.max 0 macro_count).
Proof.
  destruct (Z.le_gt_cases macro_count 0) as [Hle | Hgt].
  - rewrite (macro_sizes_mm_nonpos macro_count Hle).
    now rewrite (Z.max_l 0 macro_count Hle).
  - now rewrite Z.max_r by lia.
Qed.


Section CamoShape.

Context {G : RandomSource} {M : Libm}.
Variables (seed tile_mm : Z) (px_per_mm : Q) (macro_count micro_count : Z).

(** What [generate_camo] returns is what the two loops built, in that
    order, with the tile size computed at its start. *)
Lemma generate_camo_inv (W : Z) (shapes : list Shape) :
  generate_camo seed tile_mm px_per_mm macro_count micro_count = Ok (W, shapes) ->
  tile_px tile_mm px_per_mm = Ok W
  /\ generate_camo_unsorted seed tile_mm px_per_mm macro_count micro_count
     = Ok shapes
  /\ fst (run (generate_shapes px_per_mm W W macro_count micro_count)
              (gen_seed seed)) = Ok shapes.
Proof.
  intros E. apply generate_camo_sorted in E.
  destruct E as (HW & unsorted & Eu & ->).
  destruct (generate_camo_unsorted_roles _ _ _ _ _ _ Eu)
    as (macros & micros & -> & Hmac & Hmic).
  rewrite (list_sort_id z _ (macro_micro_sorted _ _ Hmac Hmic)).
  split; [exact HW |]. split; [exact Eu |].
  unfold generate_camo_unsorted in Eu; cbv zeta in Eu.
  rewrite HW in Eu. exact Eu.
Qed.



End CamoShape.

(** X13.  When the generator keeps the contract of [_randbelow], every shape
    [generate_camo] returns has a polygon of bounded size: a macro shape
    (draw order 10) has between 14 and 52 points, a micro shape (draw order
    30) between 12 and 30. *)
Theorem generate_camo_point_counts :
  forall (G : RandomSource) (M : Libm)
         (seed tile_mm : Z) (px_per_mm : Q) (macro_count micro_count : Z)
         (W : Z) (shapes : list Shape),
    randbelow_in_range G ->
    generate_camo seed tile_mm px_per_mm macro_count micro_count
    = Ok (W, shapes) ->
    Forall (fun s =>
              (z s = 10 /\ 14 <= Z.of_nat (List.length (poly s)) <= 52)
              \/ (z s = 30 /\ 12 <= Z.of_nat (List.length (poly s)) <= 30))
           shapes.
Proof.
  intros G M seed tile_mm px_per_mm macro_count micro_count W shapes HG E.
  apply generate_camo_inv in E. destruct E as (_ & _ & E).
  pose proof (wp_sound in_range_draw HG _ _ (gen_seed seed)
                (generate_shapes_points px_per_mm W W macro_count micro_count))
    as H.
  rewrite E in H. exact H.
Qed.

Lemma generate_camo_point_counts_witness :
  exists (W : Z) (shapes : list Shape),
    @generate_camo Reference.Lcg Reference.Poly 12345 640 2.0 42 140
    = Ok (W, shapes)
    /\ Forall (fun s =>
                 (z s = 10 /\ 14 <= Z.of_nat (List.length (poly s)) <= 52)
                 \/ (z s = 30 /\ 12 <= Z.of_nat (List.length (poly s)) <= 30))
              shapes.
Proof.
  destruct (generate_camo_macros_then_micros Reference.Lcg Reference.Poly
              12345 640 2.0 42 140 1280 tile_px_default
              Lcg_in_range Poly_hypot_nonneg)
    as (macros & micros & E & _); [lia | lia |].
  eexists. eexists. split; [exact E |].
  exact (generate_camo_point_counts Reference.Lcg Reference.Poly
           12345 640 2.0 42 140 _ _ Lcg_in_range E).
Defined.

(** X14.  Whatever the generator answers, a call of [generate_camo] that
    returns gives exactly [max(0, macro_count) + max(0, micro_count)] shapes:
    no shape is dropped or made twice. *)
Theorem generate_camo_shape_count :
  forall (G : RandomSource) (M : Libm)
         (seed tile_mm : Z) (px_per_mm : Q) (macro_count micro_count : Z)
         (W : Z) (shapes : list Shape),
    generate_camo seed tile_mm px_per_mm macro_count micro_count
    = Ok (W, shapes) ->
    Z.of_nat (List.length shapes) = Z.max 0 macro_count + Z.max 0 micro_count.
Proof.
  intros G M seed tile_mm px_per_mm macro_count micro_count W shapes E.
  apply generate_camo_inv in E. destruct E as (_ & _ & E).
  pose proof (wp_sound any_draw (fun _ _ => I) _ _ (gen_seed seed)
                (generate_shapes_count px_per_mm W W macro_count micro_count))
    as H.
  rewrite E in H. cbn [if_returns] in H. rewrite H, Nat2Z.inj_add.
  rewrite macro_sizes_mm_clamp, macro_sizes_mm_length by lia. lia.
Qed.

Lemma generate_camo_shape_count_witness :
  exists (W : Z) (shapes : list Shape),
    @generate_camo Reference.Lcg Reference.Poly 12345 640 2.0 42 140
    = Ok (W, shapes)
    /\ Z.of_nat (List.length shapes) = 182.
Proof.
  destruct (generate_camo_macros_then_micros Reference.Lcg Reference.Poly
              12345 640 2.0 42 140 1280 tile_px_default
              Lcg_in_range Poly_hypot_nonneg)
    as (macros & micros & E & _); [lia | lia |].
  eexists. eexists. split; [exact E |].
  exact (generate_camo_shape_count Reference.Lcg Reference.Poly
           12345 640 2.0 42 140 _ _ E).
Defined.





(** X17.  The sort that ends [generate_camo] never moves a shape: the list
    it returns is the list the macro loop and the micro loop built, in the
    order of generation, whatever the generator answers. *)
Theorem generate_camo_sort_keeps_order :
  forall (G : RandomSource) (M : Libm)
         (seed tile_mm : Z) (px_per_mm : Q) (macro_count micro_count : Z)
         (W : Z) (shapes : list Shape),
    generate_camo seed tile_mm px_per_mm macro_count micro_count
    = Ok (W, shapes) ->
    generate_camo_unsorted seed tile_mm px_per_mm macro_count micro_count
    = Ok shapes
    /\ list_sort z shapes = shapes.
Proof.
  intros G M seed tile_mm px_per_mm macro_count micro_count W shapes E.
  apply generate_camo_inv in E. destruct E as (_ & E & _). split; [exact E |].
  destruct (generate_camo_unsorted_roles _ _ _ _ _ _ E)
    as (macros & micros & -> & Hmac & Hmic).
  apply list_sort_id, macro_micro_sorted; assumption.
Qed.

Lemma generate_camo_sort_keeps_order_witness :
  exists (W : Z) (shapes : list Shape),
    @generate_camo Reference.Lcg Reference.Poly 12345 640 2.0 42 140
    = Ok (W, shapes)
    /\ @generate_camo_unsorted Reference.Lcg Reference.Poly 12345 640 2.0 42 140
       = Ok shapes.
Proof.
  destruct (generate_camo_macros_then_micros Reference.Lcg Reference.Poly
              12345 640 2.0 42 140 1280 tile_px_default
              Lcg_in_range Poly_hypot_nonneg)
    as (macros & micros & E & _); [lia | lia |].
  eexists. eexists. split; [exact E |].
  exact (proj1 (generate_camo_sort_keeps_order Reference.Lcg Reference.Poly
                  12345 640 2.0 42 140 _ _ E)).
Defined.

(* ================================================================== *)
(** * Dictionaries and loops that append *)

Section Dicts.

Context {V : Type}.

Lemma dict_get_in (d : list (string * V)) (k : string) :
  In k (map fst d) -> exists v, dict_get d k = Ok v.
Proof.
  induction d as [| [k' v'] d IH]; intros Hin; [destruct Hin |].
  cbn [dict_get]. destruct (String.eqb_spec k' k) as [-> | Hne].
  - now exists v'.
  - destruct Hin as [Heq | Hin]; [now destruct Hne | now apply IH].
Qed.

Lemma dict_get_missing (d : list (string * V)) (k : string) :
  ~ In k (map fst d) -> dict_get d k = Raise KeyError.
Proof.
  induction d as [| [k' v'] d IH]; intros Hout; [reflexivity |].
  cbn [dict_get]. destruct (String.eqb_spec k' k) as [-> | Hne].
  - exfalso. apply Hout. now left.
  - apply IH. intros Hin. apply Hout. now right.
Qed.

Lemma dict_set_keys (d : list (string * V)) (k : string) (v : V) :
  In k (map fst d) -> map fst (dict_set d k v) = map fst d.
Proof.
  induction d as [| [k' v'] d IH]; intros Hin; [destruct Hin |].
  cbn [dict_set]. destruct (String.eqb_spec k' k) as [-> | Hne].
  - reflexivity.
  - destruct Hin as [Heq | Hin]; [now destruct Hne |].
    cbn [map fst]. now rewrite IH.
Qed.

Lemma dict_get_set (d : list (string * V)) (k k' : string) (v : V) :
  In k (map fst d) ->
  dict_get (dict_set d k v) k'
  = if String.eqb k k' then Ok v else dict_get d k'.
Proof.
  induction d as [| [k0 v0] d IH]; intros Hin; [destruct Hin |].
  cbn [dict_set]. destruct (String.eqb_spec k0 k) as [-> | Hne].
  - cbn [dict_get]. now destruct (String.eqb k k').
  - destruct Hin as [Heq | Hin]; [now destruct Hne |].
    cbn [dict_get]. rewrite (IH Hin).
    destruct (String.eqb_spec k0 k') as [-> | Hne'].
    + destruct (String.eqb_spec k k') as [-> | _]; [now destruct Hne | reflexivity].
    + reflexivity.
Qed.

End Dicts.

Lemma fold_left_append {A B : Type} (f : A -> B) (l : list A) (acc : list B) :
  fold_left (fun acc x => acc ++ [f x]) l acc = acc ++ map f l.
Proof.
  revert acc. induction l as [| x l IH]; intros acc; cbn [fold_left map].
  - now rewrite app_nil_r.
  - now rewrite IH, <- app_assoc.
Qed.

(** A loop over the shapes that looks something up for each shape and then
    appends one entry per wrapped instance. *)
Lemma rfold_append {A B C : Type}
    (g : A -> result C) (val : A -> C) (inst : A -> list B)
    (h : C -> B -> B) (P : A -> Prop) :
  (forall s, P s -> g s = Ok (val s)) ->
  forall (shapes : list A) (acc : list B),
    Forall P shapes ->
    rfold (fun acc s =>
             (v <- g s ;;
              Ok (fold_left (fun acc p => acc ++ [h v p]) (inst s) acc))%result)
          shapes acc
    = Ok (acc ++ flat_map (fun s => map (h (val s)) (inst s)) shapes).
Proof.
  intros Hg. induction shapes as [| s shapes IH]; intros acc Hall.
  - cbn [rfold flat_map]. now rewrite app_nil_r.
  - inversion_clear Hall as [| ? ? Hs Hrest].
    cbn [rfold flat_map]. rewrite (Hg s Hs). cbn [rbind].
    rewrite fold_left_append, (IH _ Hrest). now rewrite <- app_assoc.
Qed.

(** The same loop stops with the exception of the first failing look-up. *)
Lemma rfold_raises {A St C : Type}
    (g : A -> result C) (step : St -> A -> C -> St) (e : exn) :
  (forall s, (exists v, g s = Ok v) \/ g s = Raise e) ->
  forall (shapes : list A) (acc : St),
    Exists (fun s => g s = Raise e) shapes ->
    rfold (fun acc s => (v <- g s ;; Ok (step acc s v))%result) shapes acc
    = Raise e.
Proof.
  intros Hg. induction shapes as [| s shapes IH]; intros acc Hex.
  - inversion Hex.
  - cbn [rfold]. destruct (Hg s) as [[v Hv] | Hr].
    + rewrite Hv. cbn [rbind]. apply IH.
      inversion_clear Hex as [? ? Hs | ? ? Hrest]; [congruence | exact Hrest].
    + now rewrite Hr.
Qed.

(* ================================================================== *)
(** * The area summary *)

Section Summary.

Open Scope Q_scope.

Lemma area_of_ok (poly : list Point) : polygon_area poly = Ok (area_of poly).
Proof.
  unfold area_of. now rewrite polygon_area_fold.
Qed.

(** [total_area = sum(polygon_area(s.poly) for s in shapes)] raises
    nothing. *)
Lemma total_area_loop (shapes : list Shape) :
  forall acc : Q,
  exists t : Q,
    rfold (fun acc s => (a <- polygon_area (poly s) ;; Ok (acc + a))%result)
          shapes acc = Ok t.
Proof.
  induction shapes as [| s shapes IH]; intros acc; cbn [rfold].
  - now exists acc.
  - rewrite area_of_ok. cbn [rbind]. apply IH.
Qed.

(** The loop [area_by[s.color_key] += polygon_area(s.poly)] raises nothing
    when every key is in the dictionary, and keeps the keys. *)
Lemma area_by_loop (shapes : list Shape) :
  forall d : list (string * Q),
    Forall (fun s => In (color_key s) (map fst d)) shapes ->
    exists d' : list (string * Q),
      rfold (fun d s =>
               (old <- dict_get d (color_key s) ;;
                a <- polygon_area (poly s) ;;
                Ok (dict_set d (color_key s) (old + a)))%result)
            shapes d = Ok d'
      /\ map fst d' = map fst d.
Proof.
  induction shapes as [| s shapes IH]; intros d Hall; cbn [rfold].
  - exists d. split; reflexivity.
  - inversion_clear Hall as [| ? ? Hs Hrest].
    destruct (dict_get_in d (color_key s) Hs) as (old & Hold).
    rewrite Hold, area_of_ok. cbn [rbind].
    set (d1 := dict_set d (color_key s) (old + area_of (poly s))).
    assert (Hkeys : map fst d1 = map fst d) by (apply dict_set_keys, Hs).
    destruct (IH d1) as (d' & Ed & Hk').
    { rewrite Hkeys. exact Hrest. }
    exists d'. split; [exact Ed | congruence].
Qed.

Lemma area_by_keys (d : list (string * Q)) :
  map fst d = ["C1"; "C2"; "C3"; "C4"]%string ->
  exists b1 b2 b3 b4 : Q,
    d = [("C1", b1); ("C2", b2); ("C3", b3); ("C4", b4)]%string.
Proof.
  intros H.
  destruct d as [| [k1 b1] [| [k2 b2] [| [k3 b3] [| [k4 b4] [| ? ?]]]]];
    try discriminate.
  cbn [map fst] in H. inversion H; subst. now exists b1, b2, b3, b4.
Qed.

End Summary.

Ltac string_eqb_eval :=
  repeat match goal with
         | |- context [String.eqb ?a ?b] =>
             let r := eval vm_compute in (String.eqb a b) in
             change (String.eqb a b) with r
         end;
  cbv iota.

Section Ratios.

Open Scope Q_scope.

Lemma Qltb_true (a b : Q) : Qltb a b = true <-> a < b.
Proof.
  unfold Qltb. rewrite negb_true_iff. split; intros H.
  - apply Qnot_le_lt. intros Hle. apply Qle_bool_iff in Hle. congruence.
  - destruct (Qle_bool b a) eqn:E; [| reflexivity].
    apply Qle_bool_iff in E. lra.
Qed.

(** The last loop of [main]: one ratio per key, in the order printed; the
    guard keeps the divisor away from 0. *)
Lemma ratio_loop (t b1 b2 b3 b4 : Q) :
  rfold (fun out k =>
           (ratio <- (if Qltb 0 t
                      then num <- dict_get
                                    [("C1", b1); ("C2", b2); ("C3", b3); ("C4", b4)]%string
                                    k ;;
                           py_div num t
                      else Ok 0.0) ;;
            Ok (out ++ [(k, ratio)]))%result)
        report_order []
  = if Qltb 0 t
    then Ok [("C1", b1 / t); ("C3", b3 / t); ("C2", b2 / t); ("C4", b4 / t)]%string
    else Ok [("C1", 0.0); ("C3", 0.0); ("C2", 0.0); ("C4", 0.0)]%string.
Proof.
  unfold report_order. cbn [rfold].
  destruct (Qltb 0 t) eqn:Et; [| reflexivity].
  apply Qltb_true in Et.
  assert (Ez : Qeq_bool t 0 = false).
  { destruct (Qeq_bool t 0) eqn:E; [| reflexivity].
    apply Qeq_bool_eq in E. lra. }
  cbn [dict_get]. string_eqb_eval. unfold py_div. rewrite Ez. reflexivity.
Qed.

(** On shapes with palette keys the summary returns its four entries. *)
Lemma area_report_returns (shapes : list Shape) :
  Forall palette_key shapes ->
  exists r1 r3 r2 r4 : Q,
    area_report shapes
    = Ok [("C1", r1); ("C3", r3); ("C2", r2); ("C4", r4)]%string.
Proof.
  intros Hall. unfold area_report.
  destruct (total_area_loop shapes 0%Q) as (t & Et).
  destruct (area_by_loop shapes
              [("C1", 0.0); ("C2", 0.0); ("C3", 0.0); ("C4", 0.0)]%string%Q Hall)
    as (d & Ed & Hkeys).
  destruct (area_by_keys d Hkeys) as (b1 & b2 & b3 & b4 & ->).
  rewrite Et, Ed. cbn [rbind]. rewrite ratio_loop.
  destruct (Qltb 0 t); eexists; eexists; eexists; eexists; reflexivity.
Qed.

End Ratios.

(** X18.  On shapes whose colour keys are keys of the palette, the area
    summary of [main] raises nothing: no key is missing, and the guard
    [total_area > 0] keeps every division away from a zero divisor.  It
    gives one ratio for each of C1, C3, C2, C4, in that order. *)
Theorem area_report_ratios :
  forall shapes : list Shape,
    Forall palette_key shapes ->
    exists r1 r3 r2 r4 : Q,
      area_report shapes
      = Ok [("C1", r1); ("C3", r3); ("C2", r2); ("C4", r4)]%string.
Proof.
  intros shapes Hall. now apply area_report_returns.
Qed.

Lemma area_report_ratios_witness :
  let shapes :=
    [ {| poly := [(0, 0); (2, 0); (2, 2); (0, 2)]%Q; color_key := "C1"; z := 10 |};
      {| poly := [(0, 0); (2, 0); (0, 2)]%Q; color_key := "C4"; z := 30 |} ] in
  Forall palette_key shapes
  /\ exists r1 r3 r2 r4 : Q,
       area_report shapes
       = Ok [("C1", r1); ("C3", r3); ("C2", r2); ("C4", r4)]%string.
Proof.
  intros shapes.
  assert (H : Forall palette_key shapes).
  { unfold shapes. constructor; [left; reflexivity |].
    constructor; [right; right; right; left; reflexivity | constructor]. }
  split; [exact H |].
  exact (area_report_ratios shapes H).
Defined.

Lemma area_by_loop_raises (shapes : list Shape) :
  forall d : list (string * Q),
    Exists (fun s => ~ In (color_key s) (map fst d)) shapes ->
    rfold (fun d s =>
             (old <- dict_get d (color_key s) ;;
              a <- polygon_area (poly s) ;;
              Ok (dict_set d (color_key s) (old + a)%Q))%result)
          shapes d = Raise KeyError.
Proof.
  induction shapes as [| s shapes IH]; intros d Hex; [inversion Hex |].
  cbn [rfold].
  destruct (in_dec string_dec (color_key s) (map fst d)) as [Hin | Hout].
  - destruct (dict_get_in d (color_key s) Hin) as (old & Hold).
    rewrite Hold, area_of_ok. cbn [rbind]. apply IH.
    rewrite (dict_set_keys d _ _ Hin).
    inversion_clear Hex as [? ? Hs | ? ? Hrest]; [contradiction | exact Hrest].
  - now rewrite (dict_get_missing d _ Hout).
Qed.

(** X19.  When some shape carries a colour key that is not a key of the
    palette, the area summary of [main] raises [KeyError] (from
    [area_by[s.color_key]]), whatever the other shapes are. *)
Theorem area_report_bad_key :
  forall shapes : list Shape,
    Exists (fun s => ~ palette_key s) shapes ->
    area_report shapes = Raise KeyError.
Proof.
  intros shapes Hex. unfold area_report.
  destruct (total_area_loop shapes 0%Q) as (t & Et).
  rewrite Et. cbn [rbind].
  now rewrite (area_by_loop_raises shapes
                 [("C1", 0.0); ("C2", 0.0); ("C3", 0.0); ("C4", 0.0)]%string%Q
                 Hex).
Qed.

Lemma area_report_bad_key_witness :
  let shapes :=
    [ {| poly := [(0, 0); (2, 0); (0, 2)]%Q; color_key := "C1"; z := 10 |};
      {| poly := [(0, 0); (2, 0); (0, 2)]%Q; color_key := "C5"; z := 30 |} ] in
  Exists (fun s => ~ palette_key s) shapes
  /\ area_report shapes = Raise KeyError.
Proof.
  intros shapes.
  assert (H : Exists (fun s => ~ palette_key s) shapes).
  { unfold shapes. apply Exists_cons_tl, Exists_cons_hd.
    intros [E | [E | [E | [E | []]]]]; discriminate E. }
  split; [exact H | exact (area_report_bad_key shapes H)].
Defined.

(* ================================================================== *)
(** * The renderers *)

Lemma palette_lookup (s : Shape) :
  palette_key s ->
  dict_get PALETTE (color_key s) = Ok (shape_fill s)
  /\ hex_to_rgb (shape_fill s) = Ok (shape_rgb s)
  /\ In (shape_fill s, shape_rgb s)
        [(C1_COYOTE, (129, 97, 60)); (C2_TERRE, (124, 109, 102));
         (C3_OLIVE, (75, 83, 32)); (C4_VERDIG, (122, 139, 122))].
Proof.
  unfold shape_rgb, shape_fill.
  intros [E | [E | [E | [E | []]]]]; rewrite <- E; vm_compute; intuition.
Qed.

Lemma palette_lookup_bad (s : Shape) :
  ~ palette_key s -> dict_get PALETTE (color_key s) = Raise KeyError.
Proof.
  intros H. now apply dict_get_missing.
Qed.

Lemma wrapped_instances_length (poly : list Point) (W H : Z) :
  List.length (wrapped_instances poly W H) = 9%nat.
Proof. reflexivity. Qed.

Lemma spec_drawn_length (W : Z) (shapes : list Shape) :
  List.length (spec_drawn W shapes) = (9 * List.length shapes)%nat.
Proof.
  unfold spec_drawn. induction shapes as [| s shapes IH]; [reflexivity |].
  cbn [flat_map]. rewrite length_app, length_map, wrapped_instances_length, IH.
  cbn [List.length]. lia.
Qed.

Lemma render_png_loop (W : Z) (shapes : list Shape) :
  forall drawn : list (list (Z * Z) * (Z * Z * Z)),
    Forall palette_key shapes ->
    rfold (fun drawn s =>
             (hex <- dict_get PALETTE (color_key s) ;;
              rgb <- hex_to_rgb hex ;;
              Ok (fold_left
                    (fun drawn poly =>
                       drawn ++ [(map (fun '(x, y) => (py_round x, py_round y))
                                      poly, rgb)])
                    (wrapped_instances (poly s) W W) drawn))%result)
          shapes drawn
    = Ok (drawn ++ map (fun '(s, p) => (pixel_points p, shape_rgb s))
                       (spec_drawn W shapes)).
Proof.
  induction shapes as [| s shapes IH]; intros drawn Hall.
  - cbn [rfold spec_drawn flat_map map]. now rewrite app_nil_r.
  - inversion_clear Hall as [| ? ? Hs Hrest].
    destruct (palette_lookup s Hs) as (Hfill & Hrgb & _).
    cbn [rfold]. rewrite Hfill. cbn [rbind]. rewrite Hrgb. cbn [rbind].
    rewrite (fold_left_append (fun poly => (pixel_points poly, shape_rgb s))).
    rewrite (IH _ Hrest). unfold spec_drawn. cbn [flat_map].
    now rewrite map_app, map_map, <- app_assoc.
Qed.

Lemma render_svg_loop (W : Z) (shapes : list Shape) :
  forall lines : list string,
    Forall palette_key shapes ->
    rfold (fun lines s =>
             (fill <- dict_get PALETTE (color_key s) ;;
              Ok (fold_left
                    (fun lines poly => lines ++ [svg_polygon fill poly])
                    (wrapped_instances (poly s) W W) lines))%result)
          shapes lines
    = Ok (lines ++ map (fun '(s, p) => svg_polygon (shape_fill s) p)
                       (spec_drawn W shapes)).
Proof.
  induction shapes as [| s shapes IH]; intros lines Hall.
  - cbn [rfold spec_drawn flat_map map]. now rewrite app_nil_r.
  - inversion_clear Hall as [| ? ? Hs Hrest].
    destruct (palette_lookup s Hs) as (Hfill & _).
    cbn [rfold]. rewrite Hfill. cbn [rbind].
    rewrite (fold_left_append (svg_polygon (shape_fill s))).
    rewrite (IH _ Hrest). unfold spec_drawn. cbn [flat_map].
    now rewrite map_app, map_map, <- app_assoc.
Qed.

Lemma palette_get_cases (s : Shape) :
  (exists v, dict_get PALETTE (color_key s) = Ok v)
  \/ dict_get PALETTE (color_key s) = Raise KeyError.
Proof.
  destruct (in_dec string_dec (color_key s) palette_keys) as [Hin | Hout].
  - left. exists (shape_fill s). now apply palette_lookup.
  - right. now apply palette_lookup_bad.
Qed.





(** X22.  When some shape carries a colour key that is not a key of the
    palette, [render_png] and [render_svg] both raise [KeyError] (from
    [PALETTE[s.color_key]]) and nothing else. *)
Theorem render_bad_key :
  forall (W : Z) (shapes : list Shape),
    Exists (fun s => ~ palette_key s) shapes ->
    render_png W shapes = Raise KeyError
    /\ render_svg W shapes = Raise KeyError.
Proof.
  intros W shapes Hex.
  assert (Hbad : Exists (fun s => dict_get PALETTE (color_key s) = Raise KeyError)
                        shapes).
  { eapply Exists_impl; [| exact Hex]. intros s. apply palette_lookup_bad. }
  split.
  - unfold render_png.
    change (hex_to_rgb C3_OLIVE) with (@Ok (Z * Z * Z) (75, 83, 32)).
    cbn [rbind].
    assert (E : forall drawn,
              rfold (fun drawn s =>
                       (hex <- dict_get PALETTE (color_key s) ;;
                        rgb <- hex_to_rgb hex ;;
                        Ok (fold_left
                              (fun drawn poly =>
                                 drawn ++ [(map (fun '(x, y) => (py_round x, py_round y))
                                                poly, rgb)])
                              (wrapped_instances (poly s) W W) drawn))%result)
                    shapes drawn
              = Raise KeyError).
    { clear Hex. induction Hbad as [s l Hs | s l Hrest IH]; intros drawn;
        cbn [rfold].
      - now rewrite Hs.
      - destruct (in_dec string_dec (color_key s) palette_keys) as [Hin | Hout].
        + destruct (palette_lookup s Hin) as (H1 & H2 & _).
          rewrite H1. cbn [rbind]. rewrite H2. cbn [rbind]. apply IH.
        + now rewrite (palette_lookup_bad s Hout). }
    now rewrite E.
  - unfold render_svg, render_svg_lines; cbv zeta.
    rewrite (rfold_raises (fun s => dict_get PALETTE (color_key s))
               (fun lines s fill =>
                  fold_left (fun lines poly => lines ++ [svg_polygon fill poly])
                            (wrapped_instances (poly s) W W) lines)
               KeyError palette_get_cases shapes _ Hbad).
    reflexivity.
Qed.

Lemma render_bad_key_witness :
  let shapes :=
    [ {| poly := [(0, 0); (2, 0); (0, 2)]%Q; color_key := "c1"; z := 10 |} ] in
  Exists (fun s => ~ palette_key s) shapes
  /\ render_png 4 shapes = Raise KeyError
  /\ render_svg 4 shapes = Raise KeyError.
Proof.
  intros shapes.
  assert (H : Exists (fun s => ~ palette_key s) shapes).
  { unfold shapes. apply Exists_cons_hd.
    intros [E | [E | [E | [E | []]]]]; discriminate E. }
  split; [exact H | exact (render_bad_key 4 shapes H)].
Defined.

(* ================================================================== *)
(** * [main]: the pattern, the renderings and the summary together *)

Lemma generate_camo_palette_keys {G : RandomSource} {M : Libm}
    (seed tile_mm : Z) (px_per_mm : Q) (macro_count micro_count : Z)
    (W : Z) (shapes : list Shape) :
  generate_camo seed tile_mm px_per_mm macro_count micro_count = Ok (W, shapes) ->
  Forall palette_key shapes.
Proof.
  intros E. apply generate_camo_inv in E. destruct E as (_ & E & _).
  destruct (generate_camo_unsorted_roles _ _ _ _ _ _ E)
    as (macros & micros & -> & Hmac & Hmic).
  apply Forall_app. split.
  - eapply Forall_impl; [| exact Hmac]. intros s [_ [Hc | Hc]];
      unfold palette_key; rewrite Hc; simpl; auto.
  - eapply Forall_impl; [| exact Hmic]. intros s [_ [Hc | Hc]];
      unfold palette_key; rewrite Hc; simpl; auto.
Qed.

(** X23.  Whatever the generator answers: when [generate_camo] returns, the
    rest of [main] raises nothing.  [render_png] makes its image of nine
    polygons per shape, [render_svg] its text, and the summary its four
    ratios in the order C1, C3, C2, C4; when [generate_camo] raises, [main]
    stops with that exception before anything is rendered. *)
Theorem main_outputs_returns :
  forall (G : RandomSource) (M : Libm)
         (seed tile_mm : Z) (px_per_mm : Q) (macro_count micro_count : Z),
    match generate_camo seed tile_mm px_per_mm macro_count micro_count with
    | Ok (W, shapes) =>
        exists (png : Canvas) (svg : string) (report : list (string * Q)),
          main_outputs seed tile_mm px_per_mm macro_count micro_count
          = Ok (png, svg, report)
          /\ render_png W shapes = Ok png
          /\ render_svg W shapes = Ok svg
          /\ area_report shapes = Ok report
          /\ canvas_size png = (W, W)
          /\ List.length (canvas_polygons png) = (9 * List.length shapes)%nat
          /\ map fst report = report_order
    | Raise e =>
        main_outputs seed tile_mm px_per_mm macro_count micro_count = Raise e
    end.
Proof.
  intros G M seed tile_mm px_per_mm macro_count micro_count.
  unfold main_outputs.
  destruct (generate_camo seed tile_mm px_per_mm macro_count micro_count)
    as [[W shapes] | e] eqn:E; [| reflexivity].
  pose proof (generate_camo_palette_keys _ _ _ _ _ _ _ E) as Hall.
  assert (Epng : exists png, render_png W shapes = Ok png
                   /\ canvas_size png = (W, W)
                   /\ List.length (canvas_polygons png)
                      = (9 * List.length shapes)%nat).
  { eexists. split.
    - unfold render_png.
      change (hex_to_rgb C3_OLIVE) with (@Ok (Z * Z * Z) (75, 83, 32)).
      cbn [rbind]. rewrite (render_png_loop W shapes [] Hall). reflexivity.
    - split; [reflexivity |]. cbn [canvas_polygons app].
      rewrite length_map. apply spec_drawn_length. }
  destruct Epng as (png & Epng & Hsize & Hlen).
  assert (Esvg : exists svg, render_svg W shapes = Ok svg).
  { unfold render_svg, render_svg_lines; cbv zeta.
    rewrite (render_svg_loop W shapes _ Hall). cbn [rbind]. eexists. reflexivity. }
  destruct Esvg as (svg & Esvg).
  assert (Erep : exists report, area_report shapes = Ok report
                   /\ map fst report = report_order).
  { destruct (area_report_returns shapes Hall) as (r1 & r3 & r2 & r4 & Er).
    eexists. split; [exact Er | reflexivity]. }
  destruct Erep as (report & Erep & Hrep).
  exists png, svg, report. cbn [rbind]. rewrite Epng, Esvg, Erep. cbn [rbind].
  repeat split; assumption.
Qed.
